(** * Pilosa: the methods a cluster state admits, the field registry and the
      attribute-diff endpoints

    A shallow embedding of [api.go] and [index.go] of the Pilosa bitmap
    index, and the properties its specification states about them.

    Go values are embedded as follows.
    - [uint64], [int64] and [int] values are [Z].
    - [string] is [string]; comparison [<] on strings is the bytewise
      lexicographic order.
    - [map[K]V] is [gmap K V]; [map[K]struct{}] is [gset K].
    - a function returning [error] returns [option error] ([None] is [nil]);
      a function returning [(T, error)] returns [error + T].
    - a method with a pointer receiver passes the receiver and the disk
      through explicitly; a [*Field] held by the registry is the registry's
      entry, and the locks, which only serialise callers, are left out.
    - the functions of the files that are not among the sources (field.go,
      holder.go, cluster.go, attr.go, pilosa.go) are operations of the
      class [Externals], except where the specification fixes what they
      do; the definitions that follow the specification say so. *)

From stdpp Require Import gmap strings list sorting pretty.
From Stdlib Require Import ZArith Lia.
From Stdlib Require Strings.Byte.

Set Default Proof Using "Type".
Set Warnings "-clear-no-such-hyp".

(** ** API methods (api.go, [type apiMethod int]) *)

Definition apiMethod := Z.

Module Method.
(* const ( apiClusterMessage apiMethod = iota ... ) *)
Definition apiClusterMessage : apiMethod := 0%Z.
Definition apiCreateField : apiMethod := 1%Z.
Definition apiCreateIndex : apiMethod := 2%Z.
Definition apiDeleteField : apiMethod := 3%Z.
Definition apiDeleteIndex : apiMethod := 4%Z.
Definition apiDeleteView : apiMethod := 5%Z.
Definition apiExportCSV : apiMethod := 6%Z.
Definition apiFragmentBlockData : apiMethod := 7%Z.
Definition apiFragmentBlocks : apiMethod := 8%Z.
Definition apiFieldAttrDiff : apiMethod := 9%Z.
Definition apiImport : apiMethod := 10%Z.
Definition apiImportValue : apiMethod := 11%Z.
Definition apiIndex : apiMethod := 12%Z.
Definition apiIndexAttrDiff : apiMethod := 13%Z.
Definition apiMarshalFragment : apiMethod := 14%Z.
Definition apiQuery : apiMethod := 15%Z.
Definition apiRecalculateCaches : apiMethod := 16%Z.
Definition apiRemoveNode : apiMethod := 17%Z.
Definition apiResizeAbort : apiMethod := 18%Z.
Definition apiSetCoordinator : apiMethod := 19%Z.
Definition apiSliceNodes : apiMethod := 20%Z.
Definition apiUnmarshalFragment : apiMethod := 21%Z.
Definition apiViews : apiMethod := 22%Z.
End Method.
Import Method.

(** ** Errors *)

(** Modelled from the spec: the package-level error values
    ([ErrIndexNotFound], ...), declared in a file that is not among the
    sources. Only their identity matters, so they are the constructors of
    one type. *)
Inductive sentinel :=
  | ErrIndexNotFound
  | ErrFieldNotFound
  | ErrFieldExists
  | ErrFragmentNotFound
  | ErrClusterDoesNotOwnSlice
  | ErrInvalidCacheType
  | ErrInvalidView
  | ErrName
  | ErrNodeIDNotExists.

(** The errors that [api.go] and [index.go] build. Formatting verbs are not
    rendered: a formatted message keeps its format string and its
    arguments. [External] stands for the errors of the disk and of the
    network. *)
Inductive error :=
  | Sentinel (s : sentinel)
  | errors_New (msg : string)
  | errors_Errorf (format : string) (args : list fmtArg)
  | fmt_Errorf (format : string) (args : list fmtArg)
  | withMessage (cause : error) (msg : string)      (* errors.Wrap *)
  | ApiMethodNotAllowedError (e : error)
  | BadRequestError (e : error)
  | External (what : string)                         (* I/O, network *)
with fmtArg :=
  | AString (s : string)
  | AUint (n : Z)
  | AInt (n : Z)
  | AMethod (m : apiMethod)
  | AError (e : error).

(** [errors.Wrap(err, msg)]: [nil] stays [nil]. *)
Definition errors_Wrap (err : option error) (msg : string) : option error :=
  match err with
  | None => None
  | Some e => Some (withMessage e msg)
  end.

(** [errors.Cause]: strips the contexts added by [errors.Wrap]. *)
Fixpoint errors_Cause (e : error) : error :=
  match e with
  | withMessage c _ => errors_Cause c
  | _ => e
  end.

(** ** Cluster states *)

(** Modelled from the spec: the constant [ClusterStateStarting] of
    cluster.go, which is not among the sources; the specification and the
    comment of [API.State] give its value. *)
Definition ClusterStateStarting : string := "STARTING".
(** Modelled from the spec: the constant [ClusterStateNormal] of
    cluster.go. *)
Definition ClusterStateNormal : string := "NORMAL".
(** Modelled from the spec: the constant [ClusterStateResizing] of
    cluster.go. *)
Definition ClusterStateResizing : string := "RESIZING".

(** ** The allowed-method tables (api.go) *)

Definition methodsCommon : gset apiMethod :=
  {[ apiClusterMessage; apiMarshalFragment; apiSetCoordinator ]}.

Definition methodsResizing : gset apiMethod :=
  {[ apiResizeAbort ]}.

Definition methodsNormal : gset apiMethod :=
  {[ apiCreateField; apiCreateIndex; apiDeleteField; apiDeleteIndex;
     apiDeleteView; apiExportCSV; apiFragmentBlockData; apiFragmentBlocks;
     apiFieldAttrDiff; apiImport; apiImportValue; apiIndex;
     apiIndexAttrDiff; apiQuery; apiRecalculateCaches; apiRemoveNode;
     apiSliceNodes; apiUnmarshalFragment; apiViews ]}.

(** [appendMap] copies the keys of [a], then those of [b], into a fresh
    map. *)
Definition appendMap (a b : gset apiMethod) : gset apiMethod := a ∪ b.

Definition validAPIMethods : gmap string (gset apiMethod) :=
  <[ClusterStateStarting := methodsCommon]>
  (<[ClusterStateNormal := appendMap methodsCommon methodsNormal]>
  (<[ClusterStateResizing := appendMap methodsCommon methodsResizing]> ∅)).

(** [validAPIMethods[state][f]]: indexing a missing state gives the nil map,
    in which no key is found. *)
Definition validAPIMethods_lookup (state : string) (f : apiMethod) : bool :=
  bool_decide (f ∈ default (∅ : gset apiMethod) (validAPIMethods !! state)).

(** [API.validate], as a function of the state that [api.Cluster.State()]
    returns. *)
Definition validate_in (state : string) (f : apiMethod) : option error :=
  if validAPIMethods_lookup state f then None
  else Some (ApiMethodNotAllowedError
               (errors_Errorf "api method %s not allowed in state %s"
                              [AMethod f; AString state])).

(** The state-specific method set, in the words of the specification: the
    normal set in [NORMAL], the resizing set in [RESIZING], and nothing
    beyond the common set in [STARTING]. *)
Definition stateSet_spec (state : string) : gset apiMethod :=
  if decide (state = ClusterStateNormal) then methodsNormal
  else if decide (state = ClusterStateResizing) then methodsResizing
  else ∅.

Definition is_cluster_state (state : string) : Prop :=
  state = ClusterStateStarting ∨ state = ClusterStateNormal ∨
  state = ClusterStateResizing.


(** ** Attribute stores (attr.go is not among the sources) *)

(** An attribute value ([interface{}]): a string, an integer or a
    boolean. *)
Inductive AttrValue :=
  | VString (s : string)
  | VInt (n : Z)
  | VBool (b : bool).

#[global] Instance byte_eq_dec : EqDecision Byte.byte := Strings.Byte.byte_eq_dec.

(** Modelled from the spec: [AttrBlock] of attr.go, the id of a block and
    the checksum of its content. *)
Record AttrBlock := mkAttrBlock {
  ab_ID : Z;
  ab_Checksum : list Byte.byte;
}.

(** Modelled from the spec: the [AttrStore] interface of attr.go, as the
    record of the methods that [api.go] calls: [Blocks] answers the
    summary of the non-empty blocks, [BlockData] the attributes by id of
    one block. *)
Record AttrStore := mkAttrStore {
  as_Path : string;
  as_Blocks : error + list AttrBlock;
  as_BlockData : Z → error + gmap Z (gmap string AttrValue);
}.

(** Modelled from the spec: [NopAttrStore] of attr.go, the store that holds
    nothing. *)
Definition NopAttrStore : AttrStore :=
  {| as_Path := ""; as_Blocks := inr []; as_BlockData := λ _, inr ∅ |}.
(** Modelled from the spec: [NewNopAttrStore] of attr.go. *)
Definition NewNopAttrStore (path : string) : AttrStore := NopAttrStore.

(** ** The disk *)

(** The set of the paths that exist. *)
Definition FS := gset string.

(** [filepath.Join] of Go's standard library, on clean path elements, where
    it joins with a separator and skips an empty element. *)
Definition filepath_Join (dir name : string) : string :=
  if decide (dir = "") then name
  else if decide (name = "") then dir
  else dir +:+ "/" +:+ name.

(** [q] is [p] or lies below it. *)
Definition under (p q : string) : bool :=
  bool_decide (q = p) || String.prefix (p +:+ "/") q.

(** ** Fields (field.go is not among the sources) *)

(** Modelled from the spec: [FieldOptions] of field.go. [index.go] reads
    [CacheType]; the other options are kept uninterpreted. *)
Record FieldOptions := mkFieldOptions {
  CacheType : string;
  OtherOptions : list (string * string);
}.

(** Modelled from the spec: [Fragment] of fragment.go: the bits of one
    slice, as (row, column) pairs in the order in which [forEachBit] visits
    them. *)
Record Fragment := mkFragment {
  frag_slice : Z;
  frag_bits : list (Z * Z);
}.

(** Modelled from the spec: [Field] of field.go, after the data model of
    the specification: its name, its options, its views with their
    fragments by slice, and its row attribute store. [index.go] itself
    reads [path] and sets [rowAttrStore]. *)
Record Field := mkField {
  f_path : string;
  f_index : string;
  f_name : string;
  f_options : FieldOptions;
  f_views : gmap string (gmap Z Fragment);
  f_open : bool;
  f_rowAttrStore : AttrStore;
}.

(** Modelled from the spec: [Field.Name] of field.go. *)
Definition Field_Name (f : Field) : string := f_name f.
(** Modelled from the spec: [Field.RowAttrStore] of field.go. *)
Definition Field_RowAttrStore (f : Field) : AttrStore := f_rowAttrStore f.

(** A [time.Time], as [time.Unix] builds it: whole seconds since the epoch
    and the nanoseconds within the second. *)
Record Time := mkTime {
  t_sec : Z;
  t_nsec : Z;
}.

(** ** Indexes (index.go) *)

Record IndexOptions := mkIndexOptions {}.

(** The [Index] struct, without its lock and without its broadcaster, stats
    client and logger, which [NewIndex] sets to the ones that do nothing. *)
Record Index := mkIndex {
  i_path : string;
  i_name : string;
  i_fields : gmap string Field;
  i_remoteMaxSlice : Z;
  i_NewAttrStore : string → AttrStore;
  i_columnAttrStore : AttrStore;
}.

(** ** The cluster, the holder and the messages (cluster.go, holder.go and
    the wire types are not among the sources) *)

(** Modelled from the spec: [Cluster] of cluster.go, as far as [api.go]
    reads it: the lifecycle state that [State] returns and the id of the
    local node. *)
Record Cluster := mkCluster {
  c_State : string;
  c_NodeID : string;
}.

(** Modelled from the spec: what the node stores: the registry of the
    holder (holder.go), which maps a name to its index, and the disk. *)
Record Storage := mkStorage {
  st_indexes : gmap string Index;
  st_disk : FS;
}.

(** Modelled from the spec: the messages of the wire package that [api.go]
    broadcasts, with the fields that [api.go] sets; [Meta] keeps the
    options that [Encode] is applied to. *)
Inductive Message :=
  | CreateIndexMessage (Index : string) (Meta : IndexOptions)
  | DeleteIndexMessage (Index : string)
  | CreateFieldMessage (Index Field : string) (Meta : FieldOptions)
  | DeleteFieldMessage (Index Field : string)
  | DeleteViewMessage (Index Field View : string)
  | RecalculateCachesMessage.

(** Modelled from the spec: the [Broadcaster] interface, as the record of
    the method that the operations below call: what [SendSync] answers for
    a message. *)
Record Broadcaster := mkBroadcaster {
  SendSync : Message → option error;
}.

(** Modelled from the spec: [NopBroadcaster], which sends nothing and
    never fails. *)
Definition NopBroadcaster : Broadcaster := {| SendSync := λ _, None |}.

(** The [API] struct: its holder and its cluster are in the state of a
    call, see [World]. *)
Record API := mkAPI {
  api_Broadcaster : Broadcaster;
}.

(** What a method of a field returns: its error, and the field and the disk
    as it leaves them. *)
Definition FieldEffect : Type := option error * Field * FS.

(** ** The collaborators

    The functions this development takes as given: those of the files that
    are not among the sources, and the outcome of the system calls. *)
Class Externals := {
  (** pilosa.go: the characters a name may contain. *)
  nameCharAllowed : Ascii.ascii → bool;
  (** field.go *)
  IsValidCacheType : string → bool;
  FieldOptions_Validate : FieldOptions → option error;
  Field_Open : Field → FS → FieldEffect;
  Field_Close : Field → FS → FieldEffect;
  Field_applyOptions : FieldOptions → Field → FS → FieldEffect;
  Field_saveMeta : Field → FS → FieldEffect;
  Field_DeleteView : string → Field → FS → FieldEffect;
  Field_Import :
    list Z → list Z → list (option Time) → Field → FS → FieldEffect;
  Field_ImportValue : list Z → list Z → Field → FS → FieldEffect;
  (** field.go and the wire types: the encoding of a list of fields. *)
  internal_Field : Type;
  encodeFields : list Field → list internal_Field;
  (** holder.go *)
  Holder_CreateIndex :
    string → IndexOptions → Storage → (error + Index) * Storage;
  Holder_DeleteIndex : string → Storage → option error * Storage;
  Holder_RecalculateCaches : Storage → Storage;
  (** cluster.go *)
  Cluster_ownsSlice : Cluster → string → string → Z → bool;
  (** os: when removing the tree at a path fails, the error and what is
      left of the disk. *)
  os_RemoveAll_failure : string → FS → option (error * FS);
}.

(** ** A state and error monad

    A computation may change the state and then fail: the state it leaves
    is kept, as the effects of a Go function that returns an error are. *)

Definition M (S A : Type) : Type := S → (error + A) * S.

#[global] Instance M_ret {S} : MRet (M S) := λ A a s, (inr a, s).

#[global] Instance M_bind {S} : MBind (M S) := λ A B k m s,
  match m s with
  | (inl e, s') => (inl e, s')
  | (inr a, s') => k a s'
  end.

Definition throw {S A} (e : error) : M S A := λ s, (inl e, s).
Definition gets {S A} (f : S → A) : M S A := λ s, (inr (f s), s).
Definition modify {S} (f : S → S) : M S unit := λ s, (inr (), f s).

(** [if err != nil { return err }] *)
Definition check {S} (err : option error) : M S unit :=
  match err with
  | Some e => throw e
  | None => mret ()
  end.

(** [if err != nil { return errors.Wrap(err, msg) }] around a call. *)
Definition wrap {S A} (msg : string) (m : M S A) : M S A := λ s,
  match m s with
  | (inl e, s') => (inl (withMessage e msg), s')
  | r => r
  end.

(** [(T, error)] of a call that has no effect. *)
Definition lift {S A} (r : error + A) : M S A :=
  match r with
  | inl e => throw e
  | inr a => mret a
  end.

Section Index.
Context `{Externals}.

(** Modelled from the spec: [ValidateName] of pilosa.go: a name must be
    non-empty and may not contain a disallowed character. *)
Definition ValidateName (name : string) : option error :=
  if decide (name = "") then Some (Sentinel ErrName)
  else if forallb nameCharAllowed (String.list_ascii_of_string name)
       then None
       else Some (Sentinel ErrName).

(** A name that the check rejects, in the words of the specification:
    empty, or containing a disallowed character. *)
Definition invalid_name (name : string) : Prop :=
  name = "" ∨
  ∃ c, c ∈ String.list_ascii_of_string name ∧ nameCharAllowed c = false.

(** Modelled from the spec: [NewField] of field.go: it checks the name as
    [NewIndex] does and returns a closed field without views. *)
Definition NewField (path index name : string) : error + Field :=
  match ValidateName name with
  | Some e => inl (withMessage e "validating name")
  | None =>
      inr {| f_path := path; f_index := index; f_name := name;
             f_options := {| CacheType := ""; OtherOptions := [] |};
             f_views := ∅; f_open := false;
             f_rowAttrStore := NopAttrStore |}
  end.

Definition NewIndex (path name : string) : error + Index :=
  match ValidateName name with
  | Some err => inl (withMessage err "validating name")
  | None =>
      inr {| i_path := path; i_name := name; i_fields := ∅;
             i_remoteMaxSlice := 0;
             i_NewAttrStore := NewNopAttrStore;
             i_columnAttrStore := NopAttrStore |}
  end.

Definition Index_Name (i : Index) : string := i_name i.
Definition Index_Path (i : Index) : string := i_path i.
Definition Index_ColumnAttrStore (i : Index) : AttrStore :=
  i_columnAttrStore i.

Definition Index_FieldPath (i : Index) (name : string) : string :=
  filepath_Join (i_path i) name.

Definition Index_field (i : Index) (name : string) : option Field :=
  i_fields i !! name.
Definition Index_Field (i : Index) (name : string) : option Field :=
  Index_field i name.

(** The state of a method of an index: the receiver and the disk. *)
Record IState := mkIState {
  this : Index;
  disk : FS;
}.

Definition set_fields (g : gmap string Field → gmap string Field)
    (s : IState) : IState :=
  {| this := {| i_path := i_path (this s); i_name := i_name (this s);
                i_fields := g (i_fields (this s));
                i_remoteMaxSlice := i_remoteMaxSlice (this s);
                i_NewAttrStore := i_NewAttrStore (this s);
                i_columnAttrStore := i_columnAttrStore (this s) |};
     disk := disk s |}.

(** A method called on a field that the registry does not hold (yet). *)
Definition call_local (op : Field → FS → FieldEffect) (f : Field)
    : M IState (option error * Field) := λ s,
  let '(err, f', d) := op f (disk s) in
  (inr (err, f'), {| this := this s; disk := d |}).

(** A method called on the field registered under [name]: the registry
    holds the object that the method changes. *)
Definition call_entry (name : string) (op : Field → FS → FieldEffect)
    (f : Field) : M IState (option error) := λ s,
  let '(err, f', d) := op f (disk s) in
  (inr err, set_fields (insert name f') {| this := this s; disk := d |}).

Definition os_RemoveAll (path : string) : M IState unit := λ s,
  match os_RemoveAll_failure path (disk s) with
  | Some (e, d) => (inl e, {| this := this s; disk := d |})
  | None =>
      (inr (), {| this := this s;
                  disk := filter (λ q, ¬ under path q) (disk s) |})
  end.

Definition with_rowAttrStore (a : AttrStore) (f : Field) : Field :=
  {| f_path := f_path f; f_index := f_index f; f_name := f_name f;
     f_options := f_options f; f_views := f_views f; f_open := f_open f;
     f_rowAttrStore := a |}.

(** The logger, the stats client and the broadcaster that [newField]
    hands to the field are handles without a state of their own here. *)
Definition Index_newField (i : Index) (path name : string)
    : error + Field :=
  match NewField path (i_name i) name with
  | inl err => inl err
  | inr f =>
      inr (with_rowAttrStore
             (i_NewAttrStore i (filepath_Join (f_path f) ".data")) f)
  end.

Definition Index_createField (name : string) (opt : FieldOptions)
    : M IState Field :=
  if decide (name = "") then throw (errors_New "frame name required")
  else if negb (bool_decide (CacheType opt = "")) &&
          negb (IsValidCacheType (CacheType opt))
  then throw (Sentinel ErrInvalidCacheType)
  else
    wrap "validating options" (check (FieldOptions_Validate opt));;
    i ← gets this;
    f ← wrap "initializing"
          (lift (Index_newField i (Index_FieldPath i name) name));
    '(err, f) ← call_local Field_Open f;
    match err with
    | Some e => throw (withMessage e "opening")
    | None =>
        '(err, f) ← call_local (Field_applyOptions opt) f;
        match err with
        | Some e =>
            call_local Field_Close f;;
            throw (withMessage e "applying options")
        | None =>
            '(err, f) ← call_local Field_saveMeta f;
            match err with
            | Some e =>
                call_local Field_Close f;;
                throw (withMessage e "saving meta")
            | None =>
                modify (set_fields (insert name f));;
                mret f
            end
        end
    end.

(** The errors with which [createField] rejects its arguments before it
    touches the disk. *)
Inductive field_validation_error : error → Prop :=
  | fve_name_required :
      field_validation_error (errors_New "frame name required")
  | fve_cache_type :
      field_validation_error (Sentinel ErrInvalidCacheType)
  | fve_options e :
      field_validation_error (withMessage e "validating options")
  | fve_name :
      field_validation_error
        (withMessage (withMessage (Sentinel ErrName) "validating name")
                     "initializing").

Definition Index_CreateField (name : string) (opt : FieldOptions)
    : M IState Field :=
  i ← gets this;
  match i_fields i !! name with
  | Some _ => throw (Sentinel ErrFieldExists)
  | None => Index_createField name opt
  end.

Definition Index_CreateFieldIfNotExists (name : string)
    (opt : FieldOptions) : M IState Field :=
  i ← gets this;
  match i_fields i !! name with
  | Some f => mret f
  | None => Index_createField name opt
  end.

Definition Index_DeleteField (name : string) : M IState unit :=
  i ← gets this;
  match Index_field i name with
  | None => mret ()
  | Some f =>
      err ← call_entry name Field_Close f;
      match err with
      | Some e => throw (withMessage e "closing")
      | None =>
          wrap "removing directory" (os_RemoveAll (Index_FieldPath i name));;
          modify (set_fields (delete name))
      end
  end.

(** Modelled from the spec: [fieldSlice.Less] of field.go, which is not
    among the sources: the specification keys the fields of an index by
    name, and [fieldSlice] orders fields as [indexSlice] orders
    indexes: by name. *)
Definition fieldSlice_Less (a b : Field) : bool :=
  String.ltb (Field_Name a) (Field_Name b).

(** [sort.Sort]: any sort that compares with [Less]; here by insertion. *)
Fixpoint sort_insert {A} (less : A → A → bool) (x : A) (l : list A)
    : list A :=
  match l with
  | [] => [x]
  | y :: l' => if less x y then x :: l else y :: sort_insert less x l'
  end.
Definition sort_Sort {A} (less : A → A → bool) (l : list A) : list A :=
  foldr (sort_insert less) [] l.

(** The orders in which [range] may visit the values of a map. *)
Definition range_order {V} (m : gmap string V) (a : list V) : Prop :=
  a ≡ₚ (map_to_list m).*2.

(** Ascending by name, and the invariant of the registry that a field
    is registered under its own name. *)
Definition name_le (f g : Field) : Prop :=
  String.le (Field_Name f) (Field_Name g).
Definition names_are_keys (fields : gmap string Field) : Prop :=
  ∀ k f, fields !! k = Some f → Field_Name f = k.

(** A method of a field that leaves the name of the field alone. *)
Definition keeps_name (op : Field → FS → FieldEffect) : Prop :=
  ∀ f d, Field_Name (op f d).1.2 = Field_Name f.

(** [Index.Fields], given the slice [a] that the loop over [i.fields]
    has filled. *)
Definition Index_Fields_of (a : list Field) : list Field :=
  sort_Sort fieldSlice_Less a.


(** [internal.Index], and [encodeIndex] and [EncodeIndexes], which take
    for each index the slice that its [range] loop has filled. *)
Record internal_Index := mkInternalIndex {
  pb_Name : string;
  pb_Fields : list internal_Field;
}.

Definition encodeIndex (a : list Field) (d : Index) : internal_Index :=
  {| pb_Name := i_name d; pb_Fields := encodeFields (Index_Fields_of a) |}.

Definition EncodeIndexes (a : list (list Field * Index))
    : list internal_Index :=
  (λ p, encodeIndex p.1 p.2) <$> a.
End Index.

(** ** [time.Unix] and [Time.UnixNano] (Go's standard library)

    [time.Unix(sec, nsec)] brings [nsec] into [0, 1e9) and carries into
    [sec]; Go's [/] truncates towards zero. [Import] calls it with
    [sec = 0], where the carry cannot leave the range of [int64]. *)

Definition time_Unix (sec nsec : Z) : Time :=
  if bool_decide (nsec < 0 ∨ nsec >= 1000000000)%Z then
    let n := (nsec ÷ 1000000000)%Z in
    let sec := (sec + n)%Z in
    let nsec := (nsec - n * 1000000000)%Z in
    if bool_decide (nsec < 0)%Z
    then {| t_sec := sec - 1; t_nsec := nsec + 1000000000 |}
    else {| t_sec := sec; t_nsec := nsec |}
  else {| t_sec := sec; t_nsec := nsec |}.

Definition time_UnixNano (t : Time) : Z :=
  (t_sec t * 1000000000 + t_nsec t)%Z.

(** ** Block summaries (attr.go is not among the sources) *)

(** The checksum that a summary gives for a block, if it lists the block. *)
Definition checksum_of (blocks : list AttrBlock) (id : Z)
    : option (list Byte.byte) :=
  ab_Checksum <$> head (filter (λ b, ab_ID b = id) blocks).

(** Modelled from the spec: [AttrBlocks.Diff] of attr.go: the ids of the
    blocks whose checksum differs between the two summaries, a block that
    only one side lists included. *)
Definition AttrBlocks_Diff (a other : list AttrBlock) : list Z :=
  filter (λ id, checksum_of a id ≠ checksum_of other id)
         (remove_dups ((ab_ID <$> a) ++ (ab_ID <$> other))).

(** ** The API (api.go) *)

(** Modelled from the spec: [internal.ImportRequest] of the wire package,
    with the fields that [Import] reads: parallel slices of row ids, column
    ids and timestamps for one slice of a field. *)
Record ImportRequest := mkImportRequest {
  ir_Index : string;
  ir_Field : string;
  ir_Slice : Z;
  ir_RowIDs : list Z;
  ir_ColumnIDs : list Z;
  ir_Timestamps : list Z;
}.

(** Modelled from the spec: [internal.ImportValueRequest] of the wire
    package, with the fields that [ImportValue] reads. *)
Record ImportValueRequest := mkImportValueRequest {
  ivr_Index : string;
  ivr_Field : string;
  ivr_Slice : Z;
  ivr_ColumnIDs : list Z;
  ivr_Values : list Z;
}.

(** The state of a call of the API: the cluster, what the node stores, and
    what the call has handed to its collaborators: each message given to
    the broadcaster, with the storage as it was at that moment, the lines
    given to the logger and the counters given to the stats client. *)
Record World := mkWorld {
  w_cluster : Cluster;
  w_store : Storage;
  w_sent : list (Message * Storage);
  w_log : list (string * list fmtArg);
  w_stats : list (string * list string);
}.

(** Modelled from the spec: the constant [ViewStandard], the name of the
    view that is not bucketed by time. *)
Definition ViewStandard : string := "standard".

Section api.
Context `{Externals}.

Definition set_store (g : Storage → Storage) (w : World) : World :=
  {| w_cluster := w_cluster w; w_store := g (w_store w);
     w_sent := w_sent w; w_log := w_log w; w_stats := w_stats w |}.

Definition add_log (format : string) (args : list fmtArg) (w : World)
    : World :=
  {| w_cluster := w_cluster w; w_store := w_store w; w_sent := w_sent w;
     w_log := w_log w ++ [(format, args)]; w_stats := w_stats w |}.

Definition add_stat (name : string) (tags : list string) (w : World)
    : World :=
  {| w_cluster := w_cluster w; w_store := w_store w; w_sent := w_sent w;
     w_log := w_log w; w_stats := w_stats w ++ [(name, tags)] |}.

Definition add_sent (m : Message) (w : World) : World :=
  {| w_cluster := w_cluster w; w_store := w_store w;
     w_sent := w_sent w ++ [(m, w_store w)];
     w_log := w_log w; w_stats := w_stats w |}.

Definition logger_Printf (format : string) (args : list fmtArg)
    : M World unit :=
  modify (add_log format args).

Definition Stats_Count (name : string) (tags : list string)
    : M World unit :=
  modify (add_stat name tags).

Definition Broadcaster_SendSync (api : API) (m : Message)
    : M World (option error) := λ w,
  (inr (SendSync (api_Broadcaster api) m), add_sent m w).

(** A function of holder.go, run on the storage. *)
Definition on_store {A} (op : Storage → (error + A) * Storage)
    : M World A := λ w,
  let '(r, st) := op (w_store w) in (r, set_store (λ _, st) w).

(** The storage once a method has left the index [name] and the disk as
    in [s]. *)
Definition store_index (name : string) (s : IState) (st : Storage)
    : Storage :=
  {| st_indexes := <[name := this s]> (st_indexes st);
     st_disk := disk s |}.

(** A method of the index that the holder keeps under [name]. *)
Definition on_index {A} (name : string) (i : Index) (m : M IState A)
    : M World A := λ w,
  let '(r, s) := m {| this := i; disk := st_disk (w_store w) |} in
  (r, set_store (store_index name s) w).

(** A method of the field that the index [index] keeps under [field]. *)
Definition on_field (index : string) (i : Index) (field : string)
    (f : Field) (op : Field → FS → FieldEffect)
    : M World (option error) :=
  on_index index i (call_entry field op f).

(** The storage once a method has left the field [field] of the index
    [index] as [f'] and the disk as [d']. *)
Definition store_field (index : string) (i : Index) (field : string)
    (f' : Field) (d' : FS) (st : Storage) : Storage :=
  store_index index
    (set_fields (insert field f') {| this := i; disk := d' |}) st.

(** Modelled from the spec: [Holder.Index] of holder.go, the lookup in the
    registry of the holder; [None] is the nil pointer. *)
Definition Holder_Index (st : Storage) (name : string) : option Index :=
  st_indexes st !! name.
(** Modelled from the spec: [Holder.Field] of holder.go, the lookup of the
    index and then of the field in it. *)
Definition Holder_Field (st : Storage) (index name : string)
    : option (Index * Field) :=
  i ← Holder_Index st index; f ← Index_Field i name; Some (i, f).
(** Modelled from the spec: [Holder.Fragment] of holder.go, the lookup of
    the field, of its view and of the fragment of the slice. *)
Definition Holder_Fragment (st : Storage) (index field view : string)
    (slice : Z) : option Fragment :=
  '(_, f) ← Holder_Field st index field;
  v ← f_views f !! view; v !! slice.

Definition API_LocalID (w : World) : string := c_NodeID (w_cluster w).

Definition API_validate (f : apiMethod) : M World unit :=
  state ← gets (λ w, c_State (w_cluster w));
  check (validate_in state f).

Definition API_CreateIndex (api : API) (indexName : string)
    (options : IndexOptions) : M World Index :=
  wrap "validating api method" (API_validate apiCreateIndex);;
  index ← wrap "creating index"
            (on_store (Holder_CreateIndex indexName options));
  err ← Broadcaster_SendSync api (CreateIndexMessage indexName options);
  match err with
  | Some e =>
      logger_Printf "problem sending CreateIndex message: %s" [AError e];;
      throw (withMessage e "sending CreateIndex message")
  | None => Stats_Count "createIndex" [];; mret index
  end.

Definition API_DeleteIndex (api : API) (indexName : string)
    : M World unit :=
  wrap "validating api method" (API_validate apiDeleteIndex);;
  wrap "deleting index"
    (on_store (λ st, let '(err, st') := Holder_DeleteIndex indexName st in
                     (from_option inl (inr ()) err, st')));;
  err ← Broadcaster_SendSync api (DeleteIndexMessage indexName);
  match err with
  | Some e =>
      logger_Printf "problem sending DeleteIndex message: %s" [AError e];;
      throw (withMessage e "sending DeleteIndex message")
  | None => Stats_Count "deleteIndex" []
  end.

Definition API_CreateField (api : API) (indexName fieldName : string)
    (options : FieldOptions) : M World Field :=
  wrap "validating api method" (API_validate apiCreateField);;
  st ← gets w_store;
  match Holder_Index st indexName with
  | None => throw (Sentinel ErrIndexNotFound)
  | Some index =>
      field ← wrap "creating field"
                (on_index indexName index
                   (Index_CreateField fieldName options));
      err ← Broadcaster_SendSync api
              (CreateFieldMessage indexName fieldName options);
      match err with
      | Some e =>
          logger_Printf "problem sending CreateField message: %s"
                        [AError e];;
          throw (withMessage e "sending CreateField message")
      | None =>
          Stats_Count "createField" ["index:" +:+ indexName];;
          mret field
      end
  end.

Definition API_DeleteField (api : API) (indexName fieldName : string)
    : M World unit :=
  wrap "validating api method" (API_validate apiDeleteField);;
  st ← gets w_store;
  match Holder_Index st indexName with
  | None => throw (Sentinel ErrIndexNotFound)
  | Some index =>
      wrap "deleting field"
        (on_index indexName index (Index_DeleteField fieldName));;
      err ← Broadcaster_SendSync api
              (DeleteFieldMessage indexName fieldName);
      match err with
      | Some e =>
          logger_Printf "problem sending DeleteField message: %s"
                        [AError e];;
          throw (withMessage e "sending DeleteField message")
      | None => Stats_Count "deleteField" ["index:" +:+ indexName]
      end
  end.

(** [err == ErrInvalidView] *)
Definition is_ErrInvalidView (e : error) : bool :=
  match e with
  | Sentinel ErrInvalidView => true
  | _ => false
  end.

Definition API_DeleteView (api : API)
    (indexName fieldName viewName : string) : M World unit :=
  wrap "validating api method" (API_validate apiDeleteView);;
  st ← gets w_store;
  match Holder_Field st indexName fieldName with
  | None => throw (Sentinel ErrFieldNotFound)
  | Some (i, f) =>
      err ← on_field indexName i fieldName f (Field_DeleteView viewName);
      match err with
      | Some e =>
          if is_ErrInvalidView e then mret ()
          else throw (withMessage e "deleting view")
      | None => mret ()
      end;;
      err ← Broadcaster_SendSync api
              (DeleteViewMessage indexName fieldName viewName);
      match err with
      | Some e =>
          logger_Printf "problem sending DeleteView message: %s" [AError e]
      | None => mret ()
      end;;
      check (errors_Wrap err "sending DeleteView message")
  end.

Definition API_RecalculateCaches (api : API) : M World unit :=
  wrap "validating api method" (API_validate apiRecalculateCaches);;
  err ← Broadcaster_SendSync api RecalculateCachesMessage;
  match err with
  | Some e => throw (withMessage e "broacasting message")
  | None =>
      on_store (λ st, (inr (), Holder_RecalculateCaches st))
  end.

(** [strconv.FormatUint(n, 10)] and a record of [csv.Writer]; the writer
    is a buffer in memory, which takes every write. *)
Definition strconv_FormatUint (n : Z) : string := pretty (Z.to_N n).
Definition newline : string := String (Ascii.ascii_of_nat 10) "".
Definition csv_record (fields : list string) : string :=
  String.concat "," fields +:+ newline.

Definition Fragment_forEachBit (f : Fragment) (fn : Z → Z → string)
    : string :=
  foldl (λ out bit, out +:+ fn bit.1 bit.2) "" (frag_bits f).

Definition API_ExportCSV (api : API) (indexName fieldName : string)
    (slice : Z) : M World string :=
  wrap "validating api method" (API_validate apiExportCSV);;
  w ← gets id;
  if negb (Cluster_ownsSlice (w_cluster w) (API_LocalID w) indexName slice)
  then
    logger_Printf "node %s does not own slice %d of index %s"
      [AString (API_LocalID w); AUint slice; AString indexName];;
    throw (Sentinel ErrClusterDoesNotOwnSlice)
  else
    match Holder_Fragment (w_store w) indexName fieldName ViewStandard
                          slice with
    | None => throw (Sentinel ErrFragmentNotFound)
    | Some f =>
        mret (Fragment_forEachBit f (λ rowID columnID,
                csv_record [strconv_FormatUint rowID;
                            strconv_FormatUint columnID]))
    end.

Definition API_indexField (indexName fieldName : string) (slice : Z)
    : M World (Index * Field) :=
  w ← gets id;
  if negb (Cluster_ownsSlice (w_cluster w) (API_LocalID w) indexName slice)
  then
    logger_Printf "node %s does not own slice %d of index %s"
      [AString (API_LocalID w); AUint slice; AString indexName];;
    throw (Sentinel ErrClusterDoesNotOwnSlice)
  else
    logger_Printf "importing: %v %v %v"
      [AString indexName; AString fieldName; AUint slice];;
    match Holder_Index (w_store w) indexName with
    | None =>
        logger_Printf "fragment error: index=%s, field=%s, slice=%d, err=%s"
          [AString indexName; AString fieldName; AUint slice;
           AError (Sentinel ErrIndexNotFound)];;
        throw (Sentinel ErrIndexNotFound)
    | Some index =>
        match Index_Field index fieldName with
        | None =>
            logger_Printf "field error: index=%s, field=%s, slice=%d, err=%s"
              [AString indexName; AString fieldName; AUint slice;
               AError (Sentinel ErrFieldNotFound)];;
            throw (Sentinel ErrFieldNotFound)
        | Some field => mret (index, field)
        end
    end.

(** What the timestamp [ts] of a record must become, in the words of the
    specification: nothing when it is zero. *)
Definition convert_timestamp (ts : Z) : option Time :=
  if bool_decide (ts = 0%Z) then None else Some (time_Unix 0 ts).

(** The loop of [Import] over [req.Timestamps]: a slice of nils of the
    same length, filled at the positions of the non-zero timestamps. *)
Definition convert_timestamps (tss : list Z) : list (option Time) :=
  foldl (λ timestamps p,
           if bool_decide (p.2 = 0%Z) then timestamps
           else <[p.1 := Some (time_Unix 0 p.2)]> timestamps)
        (replicate (length tss) None) (imap pair tss).

Definition API_Import (api : API) (req : ImportRequest) : M World unit :=
  wrap "validating api method" (API_validate apiImport);;
  '(index, field) ← wrap "getting field"
      (API_indexField (ir_Index req) (ir_Field req) (ir_Slice req));
  let timestamps := convert_timestamps (ir_Timestamps req) in
  err ← on_field (ir_Index req) index (ir_Field req) field
          (Field_Import (ir_RowIDs req) (ir_ColumnIDs req) timestamps);
  match err with
  | Some e =>
      logger_Printf
        "import error: index=%s, field=%s, slice=%d, columns=%d, err=%s"
        [AString (ir_Index req); AString (ir_Field req);
         AUint (ir_Slice req); AInt (Z.of_nat (length (ir_ColumnIDs req))); AError e]
  | None => mret ()
  end;;
  check (errors_Wrap err "importing").

Definition API_ImportValue (api : API) (req : ImportValueRequest)
    : M World unit :=
  wrap "validating api method" (API_validate apiImportValue);;
  '(index, field) ← wrap "getting field"
      (API_indexField (ivr_Index req) (ivr_Field req) (ivr_Slice req));
  err ← on_field (ivr_Index req) index (ivr_Field req) field
          (Field_ImportValue (ivr_ColumnIDs req) (ivr_Values req));
  match err with
  | Some e =>
      logger_Printf
        "import error: index=%s, field=%s, slice=%d, columns=%d, err=%s"
        [AString (ivr_Index req); AString (ivr_Field req);
         AUint (ivr_Slice req); AInt (Z.of_nat (length (ivr_ColumnIDs req))); AError e]
  | None => mret ()
  end;;
  check (errors_Wrap err "importing").

(** The loop shared by [IndexAttrDiff] and [FieldAttrDiff]: the data of
    each listed block is copied, key by key, into [attrs]. *)
Fixpoint read_blocks (store : AttrStore) (ids : list Z)
    (attrs : gmap Z (gmap string AttrValue))
    : error + gmap Z (gmap string AttrValue) :=
  match ids with
  | [] => inr attrs
  | blockID :: ids =>
      match as_BlockData store blockID with
      | inl err => inl (withMessage err "getting block")
      | inr m => read_blocks store ids (m ∪ attrs)
      end
  end.

Definition attr_diff (store : AttrStore) (blocks : list AttrBlock)
    : M World (gmap Z (gmap string AttrValue)) :=
  localBlocks ← wrap "getting blocks" (lift (as_Blocks store));
  lift (read_blocks store (AttrBlocks_Diff localBlocks blocks) ∅).

Definition API_IndexAttrDiff (api : API) (indexName : string)
    (blocks : list AttrBlock)
    : M World (gmap Z (gmap string AttrValue)) :=
  wrap "validating api method" (API_validate apiIndexAttrDiff);;
  st ← gets w_store;
  match Holder_Index st indexName with
  | None => throw (Sentinel ErrIndexNotFound)
  | Some index => attr_diff (Index_ColumnAttrStore index) blocks
  end.

Definition API_FieldAttrDiff (api : API) (indexName fieldName : string)
    (blocks : list AttrBlock)
    : M World (gmap Z (gmap string AttrValue)) :=
  wrap "validating api method" (API_validate apiFieldAttrDiff);;
  st ← gets w_store;
  match Holder_Field st indexName fieldName with
  | None => throw (Sentinel ErrFieldNotFound)
  | Some (_, f) => attr_diff (Field_RowAttrStore f) blocks
  end.

(** The call fails with [err]; it leaves the storage [local], and the
    message [m] was handed to the broadcaster when the storage was
    [local] already. *)
Definition fails_after_local {A} (call : M World A) (w : World)
    (local : Storage) (m : Message) (err : error) : Prop :=
  ∃ w', call w = (inl err, w') ∧ w_store w' = local ∧
        w_sent w' = w_sent w ++ [(m, local)].
End api.

(** ** A sample node

    One instance of the collaborators, on which the statements below are
    run: names are lower-case letters, digits, [_] and [-]; a field's
    directory appears when it is opened and its [.meta] file when its
    options are saved; the node owns the even slices; recalculating the
    caches leaves a [.cache] file. *)
Module Sample.
Definition set_open (b : bool) (f : Field) : Field :=
  {| f_path := f_path f; f_index := f_index f; f_name := f_name f;
     f_options := f_options f; f_views := f_views f; f_open := b;
     f_rowAttrStore := f_rowAttrStore f |}.
Definition set_options (o : FieldOptions) (f : Field) : Field :=
  {| f_path := f_path f; f_index := f_index f; f_name := f_name f;
     f_options := o; f_views := f_views f; f_open := f_open f;
     f_rowAttrStore := f_rowAttrStore f |}.
Definition set_views (v : gmap string (gmap Z Fragment)) (f : Field)
    : Field :=
  {| f_path := f_path f; f_index := f_index f; f_name := f_name f;
     f_options := f_options f; f_views := v; f_open := f_open f;
     f_rowAttrStore := f_rowAttrStore f |}.

Definition name_char (c : Ascii.ascii) : bool :=
  let n := Ascii.nat_of_ascii c in
  (97 <=? n)%nat && (n <=? 122)%nat || (48 <=? n)%nat && (n <=? 57)%nat
  || (n =? 95)%nat || (n =? 45)%nat.

Definition new_index (name : string) : Index :=
  {| i_path := "data/" +:+ name; i_name := name; i_fields := ∅;
     i_remoteMaxSlice := 0; i_NewAttrStore := NewNopAttrStore;
     i_columnAttrStore := NopAttrStore |}.

#[global] Instance externals : Externals := {|
  nameCharAllowed := name_char;
  IsValidCacheType := λ s, bool_decide (s = "lru" ∨ s = "ranked");
  FieldOptions_Validate := λ _, None;
  Field_Open := λ f d, (None, set_open true f, {[f_path f]} ∪ d);
  Field_Close := λ f d, (None, set_open false f, d);
  Field_applyOptions := λ o f d, (None, set_options o f, d);
  Field_saveMeta := λ f d,
    (None, f, {[filepath_Join (f_path f) ".meta"]} ∪ d);
  Field_DeleteView := λ v f d,
    match f_views f !! v with
    | Some _ => (None, set_views (delete v (f_views f)) f, d)
    | None => (Some (Sentinel ErrInvalidView), f, d)
    end;
  Field_Import := λ rows cols ts f d,
    (None,
     set_views (<[ViewStandard :=
                   {[0%Z := {| frag_slice := 0;
                               frag_bits := zip rows cols |}]}]>
                (f_views f)) f,
     d);
  Field_ImportValue := λ cols vals f d, (None, f, d);
  internal_Field := string;
  encodeFields := fmap f_name;
  Holder_CreateIndex := λ name _ st,
    match st_indexes st !! name with
    | Some _ => (inl (errors_New "index already exists"), st)
    | None =>
        (inr (new_index name),
         {| st_indexes := <[name := new_index name]> (st_indexes st);
            st_disk := {["data/" +:+ name]} ∪ st_disk st |})
    end;
  Holder_DeleteIndex := λ name st,
    (None, {| st_indexes := delete name (st_indexes st);
              st_disk := filter (λ q, ¬ under ("data/" +:+ name) q)
                                (st_disk st) |});
  Holder_RecalculateCaches := λ st,
    {| st_indexes := st_indexes st;
       st_disk := {["data/.cache"]} ∪ st_disk st |};
  Cluster_ownsSlice := λ _ _ _ slice, Z.even slice;
  os_RemoveAll_failure := λ _ _, None;
|}.

(** A broadcaster whose peers cannot be reached. *)
Definition unreachable : error := External "peer unreachable".
Definition downAPI : API :=
  {| api_Broadcaster := {| SendSync := λ _, Some unreachable |} |}.
Definition upAPI : API := {| api_Broadcaster := NopBroadcaster |}.

Definition color : Field :=
  {| f_path := "data/shop/color"; f_index := "shop"; f_name := "color";
     f_options := {| CacheType := "lru"; OtherOptions := [] |};
     f_views :=
       {[ViewStandard :=
           {[0%Z := {| frag_slice := 0;
                       frag_bits := [(1, 5); (2, 9)]%Z |}]}]};
     f_open := true;
     f_rowAttrStore := NopAttrStore |}.
Definition size : Field :=
  {| f_path := "data/shop/size"; f_index := "shop"; f_name := "size";
     f_options := {| CacheType := "lru"; OtherOptions := [] |};
     f_views := ∅; f_open := true;
     f_rowAttrStore := NopAttrStore |}.

Definition shop : Index :=
  {| i_path := "data/shop"; i_name := "shop";
     i_fields := {["size" := size; "color" := color]};
     i_remoteMaxSlice := 0; i_NewAttrStore := NewNopAttrStore;
     i_columnAttrStore := NopAttrStore |}.

Definition disk0 : FS :=
  {["data/shop"; "data/shop/color"; "data/shop/color/.meta";
    "data/shop/size"; "data/shop/size/.meta"]}.

Definition store0 : Storage :=
  {| st_indexes := {["shop" := shop]}; st_disk := disk0 |}.

Definition world (state : string) : World :=
  {| w_cluster := {| c_State := state; c_NodeID := "node0" |};
     w_store := store0; w_sent := []; w_log := []; w_stats := [] |}.

(** An attribute store with blocks of a hundred ids: block 0 holds the
    attributes of column 7, block 3 those of column 345. *)
Definition attrs7 : gmap string AttrValue := {["vip" := VBool true]}.
Definition attrs345 : gmap string AttrValue := {["city" := VString "Oslo"]}.
Definition columnStore : AttrStore :=
  {| as_Path := "data/shop/.data";
     as_Blocks := inr [ {| ab_ID := 0; ab_Checksum := [Byte.x0a] |};
                        {| ab_ID := 3; ab_Checksum := [Byte.x0b] |} ];
     as_BlockData := λ b,
       if bool_decide (b = 0%Z) then inr {[7%Z := attrs7]}
       else if bool_decide (b = 3%Z) then inr {[345%Z := attrs345]}
       else inr ∅ |}.
Definition remoteBlocks : list AttrBlock :=
  [ {| ab_ID := 0; ab_Checksum := [Byte.x0a] |};
    {| ab_ID := 3; ab_Checksum := [Byte.xff] |} ].
Definition catalog : Index :=
  {| i_path := "data/catalog"; i_name := "catalog"; i_fields := ∅;
     i_remoteMaxSlice := 0; i_NewAttrStore := NewNopAttrStore;
     i_columnAttrStore := columnStore |}.
Definition catalogWorld : World :=
  {| w_cluster := {| c_State := "NORMAL"; c_NodeID := "node0" |};
     w_store := {| st_indexes := {["catalog" := catalog]};
                   st_disk := {["data/catalog"]} |};
     w_sent := []; w_log := []; w_stats := [] |}.

Definition lruOptions : FieldOptions :=
  {| CacheType := "lru"; OtherOptions := [] |}.
Definition rankedOptions : FieldOptions :=
  {| CacheType := "ranked"; OtherOptions := [] |}.
End Sample.

(** * The rest of index.go and more of api.go *)

(** ** More collaborators *)

(** An entry of a directory, as [Readdir] lists it ([os.FileInfo]). *)
Record FileInfo := mkFileInfo {
  fi_Name : string;
  fi_IsDir : bool;
}.

(** What a method of an attribute store returns: its error, and the store
    and the disk as it leaves them. *)
Definition AttrStoreEffect : Type := option error * AttrStore * FS.

(** Modelled from the spec: [ColumnAttrSet], the attributes of a column in
    the response to a query, declared in a file that is not among the
    sources: [api.go] sets its id, its key and its attributes. *)
Record ColumnAttrSet := mkColumnAttrSet {
  cas_ID : Z;
  cas_Key : string;
  cas_Attrs : gmap string AttrValue;
}.

(** Modelled from the spec: a result of the executor ([interface{}]): a
    row, of which [Query] reads the columns, or a count or a boolean. *)
Inductive QueryResult :=
  | ResultRow (columns : list Z)
  | ResultCount (n : Z)
  | ResultBool (b : bool).

(** Modelled from the spec: [QueryRequest], [QueryResponse] and
    [ExecOptions], declared in files that are not among the sources, with
    the fields that [Query] reads and sets. *)
Record QueryRequest := mkQueryRequest {
  qreq_Index : string;
  qreq_Query : string;
  qreq_Slices : list Z;
  qreq_ColumnAttrs : bool;
  qreq_Remote : bool;
  qreq_ExcludeRowAttrs : bool;
  qreq_ExcludeColumns : bool;
}.

Record QueryResponse := mkQueryResponse {
  qresp_Results : list QueryResult;
  qresp_ColumnAttrSets : list ColumnAttrSet;
}.

Record ExecOptions := mkExecOptions {
  eo_Remote : bool;
  eo_ExcludeRowAttrs : bool;
  eo_ExcludeColumns : bool;
}.

(** Modelled from the spec: the [TranslateStore] interface, as the record
    of the method that [Query] calls. *)
Record TranslateStore := mkTranslateStore {
  TranslateColumnToString : string → Z → error + string;
}.

(** The functions that the rest of [index.go], [Query] and
    [readColumnAttrSets] take as given: those of field.go, of the
    attribute stores, of the parser and of the executor, and the outcome
    of the system calls. *)
Class MoreExternals := {
  (** pql and executor.go: a parsed query, the parser, and the executor,
      which may change what the node stores. *)
  PQLQuery : Type;
  pql_Parse : string → error + PQLQuery;
  Executor_Execute :
    string → PQLQuery → list Z → ExecOptions → Storage →
    (error + list QueryResult) * Storage;
  uint64Slice_merge : list Z → list Z → list Z;
  (** field.go *)
  Field_MaxSlice : Field → Z;
  (** the [AttrStore] interface *)
  AttrStore_Open : AttrStore → FS → AttrStoreEffect;
  AttrStore_Close : AttrStore → FS → AttrStoreEffect;
  AttrStore_Attrs : AttrStore → Z → error + gmap string AttrValue;
  (** os, ioutil and proto *)
  os_MkdirAll : string → FS → option error * FS;
  os_Open_error : string → FS → option error;
  File_Readdir : string → FS → error + list FileInfo;
  ioutil_ReadFile : string → FS → error + list Byte.byte;
  os_IsNotExist : error → bool;
  proto_Unmarshal_IndexMeta : list Byte.byte → option error;
}.

(** [filepath.Base] of Go's standard library: the last element of the path,
    trailing separators dropped; ["."] for the empty path and ["/"] for a
    path of separators only. *)
Definition is_separator (c : Ascii.ascii) : bool :=
  bool_decide (c = Ascii.ascii_of_nat 47).

Fixpoint drop_while {A} (p : A → bool) (l : list A) : list A :=
  match l with
  | [] => []
  | x :: l' => if p x then drop_while p l' else l
  end.

Fixpoint take_while {A} (p : A → bool) (l : list A) : list A :=
  match l with
  | [] => []
  | x :: l' => if p x then x :: take_while p l' else []
  end.

Definition filepath_Base (path : string) : string :=
  if decide (path = "") then "."
  else
    let stripped :=
      drop_while is_separator (reverse (String.list_ascii_of_string path)) in
    let last := reverse (take_while (λ c, negb (is_separator c)) stripped) in
    if decide (last = []) then "/" else String.string_of_list_ascii last.

Section more_index.
Context `{Externals} `{MoreExternals}.

(** [hasTime] (index.go). *)
Fixpoint hasTime (a : list (option Time)) : bool :=
  match a with
  | [] => false
  | t :: a' =>
      match t with
      | Some _ => true
      | None => hasTime a'
      end
  end.

(** [Index.Options] and [Index.options]. *)
Definition Index_options (i : Index) : IndexOptions := mkIndexOptions.
Definition Index_Options (i : Index) : IndexOptions := Index_options i.

(** [Index.MaxSlice], given the slice [a] of the fields in the order in
    which the loop over [i.fields] visits them; [None] is the nil
    receiver. The gauge goes to the stats client that does nothing. *)
Definition Index_MaxSlice_of (a : list Field) (i : option Index) : Z :=
  match i with
  | None => 0
  | Some i =>
      foldl (λ max f,
               if bool_decide (Field_MaxSlice f > max)%Z
               then Field_MaxSlice f else max)
            (i_remoteMaxSlice i) a
  end.

Definition Index_MaxSlice (i : option Index) : Z :=
  Index_MaxSlice_of
    (match i with Some i => (map_to_list (i_fields i)).*2 | None => [] end) i.

Definition set_remoteMaxSlice (n : Z) (s : IState) : IState :=
  {| this := {| i_path := i_path (this s); i_name := i_name (this s);
                i_fields := i_fields (this s);
                i_remoteMaxSlice := n;
                i_NewAttrStore := i_NewAttrStore (this s);
                i_columnAttrStore := i_columnAttrStore (this s) |};
     disk := disk s |}.

Definition set_columnAttrStore (a : AttrStore) (s : IState) : IState :=
  {| this := {| i_path := i_path (this s); i_name := i_name (this s);
                i_fields := i_fields (this s);
                i_remoteMaxSlice := i_remoteMaxSlice (this s);
                i_NewAttrStore := i_NewAttrStore (this s);
                i_columnAttrStore := a |};
     disk := disk s |}.

(** [Index.SetRemoteMaxSlice]. *)
Definition Index_SetRemoteMaxSlice (newmax : Z) : M IState unit :=
  modify (set_remoteMaxSlice newmax).

(** A method called on the column attribute store of the index. *)
Definition call_columnAttrStore (op : AttrStore → FS → AttrStoreEffect)
    : M IState (option error) := λ s,
  let '(err, a, d) := op (i_columnAttrStore (this s)) (disk s) in
  (inr err, set_columnAttrStore a {| this := this s; disk := d |}).


(** The loop of [Index.openFields] over the entries of the directory. *)
Fixpoint openFields_loop (fis : list FileInfo) : M IState unit :=
  match fis with
  | [] => mret ()
  | fi :: fis' =>
      if negb (fi_IsDir fi) then openFields_loop fis'
      else
        i ← gets this;
        match Index_newField i
                (Index_FieldPath i (filepath_Base (fi_Name fi)))
                (filepath_Base (fi_Name fi)) with
        | inl _ => throw (Sentinel ErrName)
        | inr fld =>
            '(err, fld) ← call_local Field_Open fld;
            match err with
            | Some e =>
                throw (fmt_Errorf "open frame: name=%s, err=%s"
                         [AString (Field_Name fld); AError e])
            | None =>
                modify (set_fields (insert (Field_Name fld) fld));;
                openFields_loop fis'
            end
        end
  end.

(** [Index.openFields]. *)
Definition Index_openFields : M IState unit :=
  s ← gets id;
  wrap "opening directory"
    (check (os_Open_error (i_path (this s)) (disk s)));;
  fis ← wrap "reading directory"
          (lift (File_Readdir (i_path (this s)) (disk s)));
  openFields_loop fis.


(** The loop of [Index.Close] over the entries of [i.fields], in the order
    [a] in which it visits them. *)
Fixpoint Close_loop (a : list (string * Field)) : M IState unit :=
  match a with
  | [] => mret ()
  | (name, f) :: a' =>
      err ← call_entry name Field_Close f;
      match err with
      | Some e => throw (withMessage e "closing frame")
      | None => Close_loop a'
      end
  end.

(** [Index.Close], given that order; the error of closing the attribute
    store is dropped. *)
Definition Index_Close_of (a : list (string * Field)) : M IState unit :=
  call_columnAttrStore AttrStore_Close;;
  Close_loop a;;
  modify (set_fields (λ _, ∅)).

(** The orders in which [range] may visit the entries of a map. *)
Definition range_entries {V} (m : gmap string V) (a : list (string * V))
    : Prop :=
  a ≡ₚ map_to_list m.
End more_index.

(** ** More of api.go *)

Section more_api.
Context `{Externals} `{MoreExternals}.

(** [API.Index]. *)
Definition API_Index (api : API) (indexName : string) : M World Index :=
  wrap "validating api method" (API_validate apiIndex);;
  st ← gets w_store;
  match Holder_Index st indexName with
  | None => throw (Sentinel ErrIndexNotFound)
  | Some index => mret index
  end.

(** [API.MarshalFragment]: the fragment itself is the [io.WriterTo]. *)
Definition API_MarshalFragment (api : API) (indexName fieldName : string)
    (slice : Z) : M World Fragment :=
  wrap "validating api method" (API_validate apiMarshalFragment);;
  st ← gets w_store;
  match Holder_Fragment st indexName fieldName ViewStandard slice with
  | None => throw (Sentinel ErrFragmentNotFound)
  | Some f => mret f
  end.

(** The loop of [readColumnAttrSets] over the ids: a column without
    attributes is skipped. *)
Fixpoint readColumnAttrSets_loop (store : AttrStore) (ids : list Z)
    (ax : list ColumnAttrSet) : error + list ColumnAttrSet :=
  match ids with
  | [] => inr ax
  | id :: ids' =>
      match AttrStore_Attrs store id with
      | inl err => inl (withMessage err "getting attrs")
      | inr attrs =>
          if bool_decide (size attrs = 0%nat)
          then readColumnAttrSets_loop store ids' ax
          else readColumnAttrSets_loop store ids'
                 (ax ++ [{| cas_ID := id; cas_Key := ""; cas_Attrs := attrs |}])
      end
  end.

(** [API.readColumnAttrSets]; [None] is the nil index. *)
Definition API_readColumnAttrSets (index : option Index) (ids : list Z)
    : error + list ColumnAttrSet :=
  match index with
  | None => inr []
  | Some index => readColumnAttrSets_loop (Index_ColumnAttrStore index) ids []
  end.

(** The loop of [Query] that translates the ids of the column attribute
    sets to keys: it returns the sets as it leaves them and the error that
    stopped it. *)
Fixpoint translate_columns (ts : TranslateStore) (index : string)
    (cols : list ColumnAttrSet) : list ColumnAttrSet * option error :=
  match cols with
  | [] => ([], None)
  | col :: cols' =>
      match TranslateColumnToString ts index (cas_ID col) with
      | inl err => (cols, Some err)
      | inr v =>
          let '(rest, err) := translate_columns ts index cols' in
          ({| cas_ID := 0; cas_Key := v; cas_Attrs := cas_Attrs col |} :: rest,
           err)
      end
  end.

(** [API.Query]. It returns the response together with the error. The
    translate store is the field of the [API] struct, [None] when nil. *)
Definition API_Query (api : API) (translateStore : option TranslateStore)
    (req : QueryRequest) (w : World) : QueryResponse * option error * World :=
  match API_validate apiQuery w with
  | (inl err, w1) =>
      ({| qresp_Results := []; qresp_ColumnAttrSets := [] |},
       Some (withMessage err "validating api method"), w1)
  | (inr _, w1) =>
      let resp := {| qresp_Results := []; qresp_ColumnAttrSets := [] |} in
      match pql_Parse (qreq_Query req) with
      | inl err => (resp, Some (withMessage err "parsing"), w1)
      | inr q =>
          let execOpts :=
            {| eo_Remote := qreq_Remote req;
               eo_ExcludeRowAttrs := qreq_ExcludeRowAttrs req;
               eo_ExcludeColumns := qreq_ExcludeColumns req |} in
          let '(res, st) :=
            Executor_Execute (qreq_Index req) q (qreq_Slices req) execOpts
                             (w_store w1) in
          let w2 := set_store (λ _, st) w1 in
          match res with
          | inl err => (resp, Some (withMessage err "executing"), w2)
          | inr results =>
              let resp := {| qresp_Results := results;
                             qresp_ColumnAttrSets :=
                               qresp_ColumnAttrSets resp |} in
              if qreq_ColumnAttrs req && negb (qreq_ExcludeColumns req) then
                let columnIDs :=
                  foldl (λ columnIDs result,
                           match result with
                           | ResultRow columns =>
                               uint64Slice_merge columnIDs columns
                           | _ => columnIDs
                           end) [] results in
                match API_readColumnAttrSets
                        (Holder_Index (w_store w2) (qreq_Index req))
                        columnIDs with
                | inl err =>
                    (resp, Some (withMessage err "reading column attrs"), w2)
                | inr columnAttrSets =>
                    let '(translated, err) :=
                      match translateStore with
                      | Some ts =>
                          translate_columns ts (qreq_Index req)
                            (qresp_ColumnAttrSets resp)
                      | None => (qresp_ColumnAttrSets resp, None)
                      end in
                    match err with
                    | Some err =>
                        ({| qresp_Results := results;
                            qresp_ColumnAttrSets := translated |},
                         Some err, w2)
                    | None =>
                        ({| qresp_Results := results;
                            qresp_ColumnAttrSets := columnAttrSets |},
                         None, w2)
                    end
                end
              else (resp, None, w2)
          end
      end
  end.

(** What a method that [validate] rejects returns: the method-not-allowed
    error, wrapped, and the world as it was. *)
Definition rejected_by_validate {A} (m : apiMethod) (w : World)
    : (error + A) * World :=
  (inl (withMessage
          (ApiMethodNotAllowedError
             (errors_Errorf "api method %s not allowed in state %s"
                [AMethod m; AString (c_State (w_cluster w))]))
          "validating api method"), w).

End more_api.





(** ** More of the sample node

    One instance of the further collaborators: a directory lists the paths
    directly below it, those whose name starts with a dot as files and the
    others as directories; the largest slice of a field is the largest
    slice of its standard view; an attribute store reads the attributes of
    an id from its block of a hundred ids. *)
Module Sample2.
Definition child_of (p q : string) : option FileInfo :=
  if String.prefix (p +:+ "/") q then
    let rest := String.substring (String.length p + 1)
                  (String.length q - String.length p - 1) q in
    if existsb is_separator (String.list_ascii_of_string rest) then None
    else Some {| fi_Name := rest; fi_IsDir := negb (String.prefix "." rest) |}
  else None.

Definition missing : error := External "file does not exist".

Definition largest_slice (f : Field) : Z :=
  match f_views f !! ViewStandard with
  | Some v => foldr Z.max 0%Z (map_to_list v).*1
  | None => 0%Z
  end.

#[global] Instance moreExternals : MoreExternals := {|
  Field_MaxSlice := largest_slice;
  AttrStore_Open := λ a d, (None, a, {[as_Path a]} ∪ d);
  AttrStore_Close := λ a d, (None, a, d);
  AttrStore_Attrs := λ a id,
    match as_BlockData a (id `div` 100)%Z with
    | inl e => inl e
    | inr m => inr (default ∅ (m !! id))
    end;
  os_MkdirAll := λ p d, (None, {[p]} ∪ d);
  os_Open_error := λ p d,
    if decide (p ∈ d) then None else Some (External "no such directory");
  File_Readdir := λ p d, inr (omap (child_of p) (elements d));
  ioutil_ReadFile := λ p d, if decide (p ∈ d) then inr [] else inl missing;
  os_IsNotExist := λ e,
    match e with
    | External what => String.eqb what "file does not exist"
    | _ => false
    end;
  proto_Unmarshal_IndexMeta := λ _, None;
  PQLQuery := string;
  pql_Parse := λ q,
    if String.eqb q "" then inl (External "empty query") else inr q;
  Executor_Execute := λ index q slices opts st,
    match st_indexes st !! index with
    | None => (inl (Sentinel ErrIndexNotFound), st)
    | Some _ => (inr [ResultRow [7; 345]%Z; ResultCount 2], st)
    end;
  uint64Slice_merge := λ a b, merge_sort Z.le (remove_dups (a ++ b));
|}.

Definition shopState : IState :=
  {| this := Sample.shop; disk := Sample.disk0 |}.

(** An index that has heard of slice 2 from another node and holds the
    slices 0 and 5 of its only field. *)
Definition stock : Field :=
  {| f_path := "data/depot/stock"; f_index := "depot"; f_name := "stock";
     f_options := Sample.lruOptions;
     f_views :=
       {[ViewStandard :=
           {[0%Z := {| frag_slice := 0; frag_bits := [(1, 5)]%Z |};
             5%Z := {| frag_slice := 5; frag_bits := [] |}]}]};
     f_open := true;
     f_rowAttrStore := NopAttrStore |}.
Definition depot : Index :=
  {| i_path := "data/depot"; i_name := "depot";
     i_fields := {["stock" := stock]};
     i_remoteMaxSlice := 2; i_NewAttrStore := NewNopAttrStore;
     i_columnAttrStore := NopAttrStore |}.
Definition depotState : IState :=
  {| this := depot; disk := {["data/depot"; "data/depot/stock"]} |}.


(** An attribute store like that of the catalog, whose block 3 cannot be
    read, and a node that holds an index with it. *)
Definition badBlock : error := External "bad block".
Definition brokenStore : AttrStore :=
  {| as_Path := "data/ledger/.data";
     as_Blocks := as_Blocks Sample.columnStore;
     as_BlockData := λ b,
       if bool_decide (b = 3%Z) then inl badBlock
       else as_BlockData Sample.columnStore b |}.
Definition ledger : Index :=
  {| i_path := "data/ledger"; i_name := "ledger"; i_fields := ∅;
     i_remoteMaxSlice := 0; i_NewAttrStore := NewNopAttrStore;
     i_columnAttrStore := brokenStore |}.
Definition ledgerWorld : World :=
  {| w_cluster := {| c_State := "NORMAL"; c_NodeID := "node0" |};
     w_store := {| st_indexes := {["ledger" := ledger]};
                   st_disk := {["data/ledger"]} |};
     w_sent := []; w_log := []; w_stats := [] |}.
End Sample2.
(** * Properties *)

(** ** The methods a cluster state admits *)

Lemma validAPIMethods_starting :
  validAPIMethods !! ClusterStateStarting = Some methodsCommon.
Proof. reflexivity. Qed.

Lemma validAPIMethods_normal :
  validAPIMethods !! ClusterStateNormal =
  Some (methodsCommon ∪ methodsNormal).
Proof. reflexivity. Qed.

Lemma validAPIMethods_resizing :
  validAPIMethods !! ClusterStateResizing =
  Some (methodsCommon ∪ methodsResizing).
Proof. reflexivity. Qed.

Lemma allowed_set_of_state (S : string) :
  is_cluster_state S →
  default ∅ (validAPIMethods !! S) = methodsCommon ∪ stateSet_spec S.
Proof.
  intros [->|[->| ->]].
  - rewrite validAPIMethods_starting. simpl.
    change (stateSet_spec ClusterStateStarting) with (∅ : gset apiMethod).
    set_solver.
  - by rewrite validAPIMethods_normal.
  - by rewrite validAPIMethods_resizing.
Qed.

Lemma validate_in_None (S : string) (M : apiMethod) :
  validate_in S M = None ↔ M ∈ default ∅ (validAPIMethods !! S).
Proof.
  unfold validate_in, validAPIMethods_lookup.
  case_bool_decide; naive_solver.
Qed.

Lemma API_validate_run (M : apiMethod) (w : World) :
  API_validate M w =
  (from_option inl (inr ()) (validate_in (c_State (w_cluster w)) M), w).
Proof.
  unfold API_validate, mbind, M_bind, gets, check, throw, mret, M_ret.
  by destruct (validate_in _ _).
Qed.

(** C1: with the cluster in one of the three states, [validate] returns no
    error exactly when the method is in the common set or in the set of
    that state; otherwise it returns a method-not-allowed error that
    carries the method and the state. It changes nothing. *)
Theorem validate_iff_allowed (w : World) (M : apiMethod) :
  is_cluster_state (c_State (w_cluster w)) →
  (API_validate M w = (inr (), w) ↔
   M ∈ methodsCommon ∪ stateSet_spec (c_State (w_cluster w))) ∧
  (M ∉ methodsCommon ∪ stateSet_spec (c_State (w_cluster w)) →
   API_validate M w =
     (inl (ApiMethodNotAllowedError
             (errors_Errorf "api method %s not allowed in state %s"
                [AMethod M; AString (c_State (w_cluster w))])), w)).
Proof.
  intros HS. rewrite API_validate_run.
  rewrite <-(allowed_set_of_state _ HS), <-validate_in_None.
  unfold validate_in. destruct (validAPIMethods_lookup _ M); simpl.
  - split; [done|]. by intros [].
  - split; [|done]. split; intros [=].
Qed.

Lemma validate_iff_allowed_witness :
  API_validate apiResizeAbort (Sample.world ClusterStateResizing) =
    (inr (), Sample.world ClusterStateResizing) ∧
  API_validate apiQuery (Sample.world ClusterStateResizing) =
    (inl (ApiMethodNotAllowedError
            (errors_Errorf "api method %s not allowed in state %s"
               [AMethod apiQuery; AString ClusterStateResizing])),
     Sample.world ClusterStateResizing).
Proof.
  destruct (validate_iff_allowed (Sample.world ClusterStateResizing)
              apiResizeAbort) as [Hok _].
  { right; right; reflexivity. }
  destruct (validate_iff_allowed (Sample.world ClusterStateResizing)
              apiQuery) as [_ Hrej].
  { right; right; reflexivity. }
  split.
  - apply Hok. apply (bool_decide_unpack _). vm_compute. exact I.
  - apply Hrej. apply (bool_decide_unpack _). vm_compute. exact I.
Defined.

Lemma API_validate_ok (M : apiMethod) (w : World) :
  API_validate M w = (inr (), w) ↔
  M ∈ default ∅ (validAPIMethods !! c_State (w_cluster w)).
Proof.
  rewrite API_validate_run, <-validate_in_None.
  destruct (validate_in _ M); simpl; split; intros [=]; done.
Qed.

(** C2: the common set is cluster-message, marshal-fragment and
    set-coordinator, and its methods pass validation in every state, in
    [STARTING] they alone; the resizing set is resize-abort; in [RESIZING]
    the three common methods and resize-abort pass validation and no other
    method does, so Query is rejected there. *)
Theorem resizing_allows_exactly_four :
  (∀ M : apiMethod,
     M ∈ methodsCommon ↔
     M = apiClusterMessage ∨ M = apiMarshalFragment ∨ M = apiSetCoordinator) ∧
  (∀ M : apiMethod, M ∈ methodsResizing ↔ M = apiResizeAbort) ∧
  (∀ (w : World) (M : apiMethod),
     is_cluster_state (c_State (w_cluster w)) → M ∈ methodsCommon →
     API_validate M w = (inr (), w)) ∧
  (∀ (w : World) (M : apiMethod),
     c_State (w_cluster w) = ClusterStateStarting →
     (API_validate M w = (inr (), w) ↔ M ∈ methodsCommon)) ∧
  (∀ (w : World) (M : apiMethod),
     c_State (w_cluster w) = ClusterStateResizing →
     (API_validate M w = (inr (), w) ↔
      M = apiClusterMessage ∨ M = apiMarshalFragment ∨
      M = apiSetCoordinator ∨ M = apiResizeAbort)) ∧
  (∀ w : World,
     c_State (w_cluster w) = ClusterStateResizing →
     API_validate apiQuery w =
       (inl (ApiMethodNotAllowedError
               (errors_Errorf "api method %s not allowed in state %s"
                  [AMethod apiQuery; AString ClusterStateResizing])), w)).
Proof.
  split_and!.
  - intros M. unfold methodsCommon. set_solver.
  - intros M. unfold methodsResizing. set_solver.
  - intros w M HS HM. apply API_validate_ok.
    rewrite (allowed_set_of_state _ HS). set_solver.
  - intros w M HS. by rewrite API_validate_ok, HS, validAPIMethods_starting.
  - intros w M HS. rewrite API_validate_ok, HS, validAPIMethods_resizing.
    simpl. unfold methodsCommon, methodsResizing. set_solver.
  - intros w HS. rewrite API_validate_run, HS. reflexivity.
Qed.

Lemma resizing_allows_exactly_four_witness :
  API_validate apiSetCoordinator (Sample.world ClusterStateStarting) =
    (inr (), Sample.world ClusterStateStarting) ∧
  API_validate apiResizeAbort (Sample.world ClusterStateResizing) =
    (inr (), Sample.world ClusterStateResizing) ∧
  API_validate apiQuery (Sample.world ClusterStateResizing) =
    (inl (ApiMethodNotAllowedError
            (errors_Errorf "api method %s not allowed in state %s"
               [AMethod apiQuery; AString ClusterStateResizing])),
     Sample.world ClusterStateResizing).
Proof.
  destruct resizing_allows_exactly_four
    as (Hcommon & _ & Hevery & _ & Hresizing & Hquery).
  split_and!.
  - apply Hevery; [left; reflexivity|].
    apply Hcommon. right; right; reflexivity.
  - apply Hresizing; [reflexivity|]. right; right; right; reflexivity.
  - apply Hquery. reflexivity.
Defined.

(** ** The normal table in the other states *)

Lemma method_tables_disjoint :
  methodsCommon ∩ methodsNormal = ∅ ∧
  methodsCommon ∩ methodsResizing = ∅ ∧
  methodsNormal ∩ methodsResizing = ∅.
Proof. split_and!; apply (bool_decide_unpack _); vm_compute; exact I. Qed.

Lemma valid_methods_within_tables (state : string) :
  default (∅ : gset apiMethod) (validAPIMethods !! state) ⊆
    methodsCommon ∪ methodsNormal ∪ methodsResizing ∧
  (state ≠ ClusterStateNormal →
   default (∅ : gset apiMethod) (validAPIMethods !! state) ⊆
     methodsCommon ∪ methodsResizing).
Proof.
  unfold validAPIMethods, appendMap. rewrite !lookup_insert, lookup_empty.
  repeat case_decide; simpl; split; try set_solver.
Qed.

Lemma normal_method_elsewhere (state : string) (M : apiMethod) :
  M ∈ methodsNormal → state ≠ ClusterStateNormal →
  validate_in state M ≠ None.
Proof.
  intros HM Hstate Hok%validate_in_None.
  destruct (valid_methods_within_tables state) as [_ Hsub].
  specialize (Hsub Hstate M Hok).
  destruct method_tables_disjoint as (Hcn & _ & Hnr). set_solver.
Qed.

(** In a state other than [NORMAL], whatever string it is, [validate]
    refuses the methods of the normal table. *)
Lemma validate_in_rejects_normal (state : string) (M : apiMethod) :
  M ∈ methodsNormal → state ≠ ClusterStateNormal →
  validate_in state M =
    Some (ApiMethodNotAllowedError
            (errors_Errorf "api method %s not allowed in state %s"
               [AMethod M; AString state])).
Proof.
  intros HM Hstate.
  pose proof (normal_method_elsewhere state M HM Hstate) as Hrej.
  unfold validate_in in *. by destruct (validAPIMethods_lookup state M).
Qed.

(** ** The monad *)

Ltac unfold_M :=
  unfold mbind, mret, M_bind, M_ret, throw, gets, modify, check, wrap, lift
    in *.

Lemma bind_ok {S A B} (m : M S A) (k : A → M S B) s a s' :
  m s = (inr a, s') → (m ≫= k) s = k a s'.
Proof. intros Hm. unfold mbind, M_bind. by rewrite Hm. Qed.

Lemma bind_err {S A B} (m : M S A) (k : A → M S B) s e s' :
  m s = (inl e, s') → (m ≫= k) s = (inl e, s').
Proof. intros Hm. unfold mbind, M_bind. by rewrite Hm. Qed.

Lemma wrap_ok {S A} msg (m : M S A) s a s' :
  m s = (inr a, s') → wrap msg m s = (inr a, s').
Proof. intros Hm. unfold wrap. by rewrite Hm. Qed.

Lemma wrap_err {S A} msg (m : M S A) s e s' :
  m s = (inl e, s') → wrap msg m s = (inl (withMessage e msg), s').
Proof. intros Hm. unfold wrap. by rewrite Hm. Qed.

(** ** Sorting *)

Section sorting.
Context {A : Type} (less : A → A → bool) (R : relation A).
Hypothesis less_true : ∀ x y, less x y = true → R x y.
Hypothesis less_false : ∀ x y, less x y = false → R y x.





End sorting.

(** ** The field registry of an index *)

Lemma forallb_false_elem {A} (p : A → bool) (l : list A) :
  forallb p l = false → ∃ x, x ∈ l ∧ p x = false.
Proof.
  induction l as [|a l IH]; simpl; [done|].
  destruct (p a) eqn:Ha; simpl.
  - intros (x & Hx & Hp)%IH. exists x. split; [by right|done].
  - intros _. exists a. split; [by left|done].
Qed.

Section index_properties.
Context `{Externals}.

(** C5: [CreateField] on a registered name fails with [ErrFieldExists]
    and changes neither the registry nor the disk; on a registered name
    [CreateFieldIfNotExists] returns the registered field, without
    applying the options, and changes nothing either. *)
Theorem CreateField_existing (name : string) (opt : FieldOptions)
    (i : Index) (d : FS) (f : Field) :
  i_fields i !! name = Some f →
  Index_CreateField name opt {| this := i; disk := d |} =
    (inl (Sentinel ErrFieldExists), {| this := i; disk := d |}) ∧
  Index_CreateFieldIfNotExists name opt {| this := i; disk := d |} =
    (inr f, {| this := i; disk := d |}).
Proof.
  intros Hf. unfold Index_CreateField, Index_CreateFieldIfNotExists.
  unfold_M. simpl. by rewrite Hf.
Qed.

Lemma under_refl (p : string) : under p p = true.
Proof. unfold under. by rewrite bool_decide_eq_true_2. Qed.

(** C6: [DeleteField] on a name that is not registered returns no error
    and changes nothing; on a registered field, when closing it and
    removing its directory succeed, it returns no error, the disk is the
    one that [Close] left without the field's directory and all below
    it, and the registry has lost the entry and no other. *)
Theorem DeleteField_absent_and_present (name : string) (i : Index)
    (d : FS) :
  (i_fields i !! name = None →
   Index_DeleteField name {| this := i; disk := d |} =
     (inr (), {| this := i; disk := d |})) ∧
  (∀ f f' d',
     i_fields i !! name = Some f →
     Field_Close f d = (None, f', d') →
     os_RemoveAll_failure (Index_FieldPath i name) d' = None →
     ∃ s', Index_DeleteField name {| this := i; disk := d |} = (inr (), s') ∧
           i_fields (this s') = delete name (i_fields i) ∧
           i_fields (this s') !! name = None ∧
           disk s' = filter (λ q, ¬ under (Index_FieldPath i name) q) d' ∧
           (Index_FieldPath i name ∉ disk s') ∧
           (∀ q, q ∈ disk s' → under (Index_FieldPath i name) q = false)).
Proof.
  split.
  - intros Hf. unfold Index_DeleteField, Index_field. unfold_M. simpl.
    by rewrite Hf.
  - intros f f' d' Hf Hclose Hrm.
    unfold Index_DeleteField, Index_field, call_entry, os_RemoveAll.
    unfold_M. simpl. rewrite Hf. simpl. rewrite Hclose. simpl.
    rewrite Hrm.
    eexists. split; [reflexivity|]. simpl.
    split_and!.
    + apply delete_insert_eq.
    + rewrite delete_insert_eq. apply lookup_delete_eq.
    + done.
    + rewrite elem_of_filter. intros [Hn _]. apply Hn.
      by rewrite under_refl.
    + intros q [Hn _]%elem_of_filter.
      by destruct (under (Index_FieldPath i name) q).
Qed.

(** When closing the field fails, [DeleteField] returns that error and
    the field stays registered. *)
Lemma DeleteField_close_fails (name : string) (i : Index) (d : FS)
    f e f' d' :
  i_fields i !! name = Some f →
  Field_Close f d = (Some e, f', d') →
  ∃ s', Index_DeleteField name {| this := i; disk := d |} =
          (inl (withMessage e "closing"), s') ∧
        i_fields (this s') !! name = Some f' ∧ disk s' = d'.
Proof.
  intros Hf Hclose.
  unfold Index_DeleteField, Index_field, call_entry. unfold_M. simpl.
  rewrite Hf. simpl. rewrite Hclose. simpl.
  eexists. split; [reflexivity|]. simpl.
  by rewrite lookup_insert_eq.
Qed.

Lemma ValidateName_invalid (name : string) :
  invalid_name name ↔ ValidateName name = Some (Sentinel ErrName).
Proof.
  unfold invalid_name, ValidateName. case_decide as Hn.
  - naive_solver.
  - destruct (forallb _ _) eqn:Hall.
    + split; [|done]. intros [?|(c & Hc & Hbad)]; [done|].
      rewrite forallb_forall in Hall.
      apply list_elem_of_In, Hall in Hc. congruence.
    + split; [done|]. intros _. right.
      by apply forallb_false_elem.
Qed.

Lemma ValidateName_valid (name : string) :
  ¬ invalid_name name ↔ ValidateName name = None.
Proof.
  rewrite ValidateName_invalid. unfold ValidateName.
  case_decide; [naive_solver|]. destruct (forallb _ _); naive_solver.
Qed.

Lemma createField_invalid (name : string) (opt : FieldOptions)
    (s : IState) :
  invalid_name name →
  ∃ err, field_validation_error err ∧
         Index_createField name opt s = (inl err, s).
Proof.
  intros Hinv%ValidateName_invalid. unfold Index_createField.
  case_decide as Hn.
  { eexists. split; [constructor|done]. }
  destruct (negb _ && negb _).
  { eexists. split; [constructor|done]. }
  unfold_M. destruct (FieldOptions_Validate opt) as [e|]; simpl.
  { eexists. split; [constructor|done]. }
  unfold Index_newField, NewField. rewrite Hinv. simpl.
  eexists. split; [constructor|done].
Qed.

Lemma createField_registers (name : string) (opt : FieldOptions)
    (s s' : IState) (f : Field) :
  Index_createField name opt s = (inr f, s') →
  i_fields (this s') !! name = Some f.
Proof.
  unfold Index_createField. case_decide; [done|].
  destruct (negb _ && negb _); [done|].
  unfold_M. destruct (FieldOptions_Validate opt); [done|]. simpl.
  destruct (Index_newField _ _ _) as [|f0]; [done|]. simpl.
  unfold call_local. simpl.
  destruct (Field_Open f0 _) as [[[e|] f1] d1]; [done|]. simpl.
  destruct (Field_applyOptions opt f1 d1) as [[[e|] f2] d2]; simpl.
  { by destruct (Field_Close f2 d2) as [[? ?] ?]. }
  destruct (Field_saveMeta f2 d2) as [[[e|] f3] d3]; simpl.
  { by destruct (Field_Close f3 d3) as [[? ?] ?]. }
  intros [= <- <-]. simpl. apply lookup_insert_eq.
Qed.

Lemma CreateField_registers (name : string) (opt : FieldOptions)
    (s s' : IState) (f : Field) :
  Index_CreateField name opt s = (inr f, s') →
  i_fields (this s') !! name = Some f.
Proof.
  unfold Index_CreateField. unfold_M. simpl.
  destruct (i_fields (this s) !! name); [done|].
  apply createField_registers.
Qed.

(** The registry keeps every field under its own name, as long as the
    methods of a field leave its name alone. *)
Lemma NewIndex_names_are_keys (path name : string) (i : Index) :
  NewIndex path name = inr i → names_are_keys (i_fields i).
Proof.
  unfold NewIndex. destruct (ValidateName name); [done|].
  intros [= <-]. intros k f. simpl. by rewrite lookup_empty.
Qed.

Lemma createField_names_are_keys (name : string) (opt : FieldOptions)
    (s s' : IState) (f : Field) :
  keeps_name Field_Open → keeps_name (Field_applyOptions opt) →
  keeps_name Field_saveMeta →
  names_are_keys (i_fields (this s)) →
  Index_createField name opt s = (inr f, s') →
  names_are_keys (i_fields (this s')).
Proof.
  intros Hopen Happly Hsave Hkeys. unfold Index_createField.
  case_decide; [done|]. destruct (negb _ && negb _); [done|].
  unfold_M. destruct (FieldOptions_Validate opt); [done|]. simpl.
  unfold Index_newField, NewField.
  destruct (ValidateName name); [done|]. simpl.
  unfold call_local. simpl.
  match goal with |- context [Field_Open ?f0 ?d0] =>
    specialize (Hopen f0 d0);
    destruct (Field_Open f0 d0) as [[[e|] f1] d1]; [done|]
  end. simpl in *.
  specialize (Happly f1 d1).
  destruct (Field_applyOptions opt f1 d1) as [[[e|] f2] d2]; simpl in *.
  { by destruct (Field_Close f2 d2) as [[? ?] ?]. }
  specialize (Hsave f2 d2).
  destruct (Field_saveMeta f2 d2) as [[[e|] f3] d3]; simpl in *.
  { by destruct (Field_Close f3 d3) as [[? ?] ?]. }
  intros [= <- <-]. simpl. intros k g.
  rewrite lookup_insert. case_decide as Hk.
  - intros [= <-]. subst k. unfold Field_Name in *. congruence.
  - apply Hkeys.
Qed.

Lemma DeleteField_names_are_keys (name : string) (s s' : IState) r :
  keeps_name Field_Close →
  names_are_keys (i_fields (this s)) →
  Index_DeleteField name s = (r, s') →
  names_are_keys (i_fields (this s')).
Proof.
  intros Hclose Hkeys. unfold Index_DeleteField, Index_field. unfold_M.
  simpl. destruct (i_fields (this s) !! name) as [f|] eqn:Hf.
  2:{ by intros [= _ <-]. }
  unfold call_entry, os_RemoveAll. simpl.
  specialize (Hclose f (disk s)).
  destruct (Field_Close f (disk s)) as [[[e|] f'] d']; simpl in *.
  - intros [= _ <-]. simpl. intros k g. rewrite lookup_insert.
    case_decide as Hk; [|apply Hkeys].
    intros [= <-]. subst k. rewrite Hclose. by apply Hkeys.
  - destruct (os_RemoveAll_failure _ d') as [[e d'']|]; simpl.
    + intros [= _ <-]. simpl. intros k g. rewrite lookup_insert.
      case_decide as Hk; [|apply Hkeys].
      intros [= <-]. subst k. rewrite Hclose. by apply Hkeys.
    + intros [= _ <-]. simpl. intros k g.
      rewrite delete_insert_eq, lookup_delete. case_decide; [done|].
      apply Hkeys.
Qed.

(** C9: a name that is empty or contains a disallowed character is
    rejected when an index or a field is created: [NewIndex] returns the
    error of the name check and no index, and [createField], and with it
    [CreateField] and [CreateFieldIfNotExists] on a name that is not
    registered, fail with a validation error and leave the registry and
    the disk as they were. *)
Theorem invalid_name_rejected (name : string) :
  invalid_name name →
  (∀ path, NewIndex path name =
           inl (withMessage (Sentinel ErrName) "validating name")) ∧
  (∀ opt s, ∃ err, field_validation_error err ∧
                   Index_createField name opt s = (inl err, s)) ∧
  (∀ opt s, i_fields (this s) !! name = None →
            ∃ err, field_validation_error err ∧
                   Index_CreateField name opt s = (inl err, s)) ∧
  (∀ opt s, i_fields (this s) !! name = None →
            ∃ err, field_validation_error err ∧
                   Index_CreateFieldIfNotExists name opt s = (inl err, s)).
Proof.
  intros Hinv. split_and!.
  - intros path. unfold NewIndex.
    by apply ValidateName_invalid in Hinv as ->.
  - intros opt s. by apply createField_invalid.
  - intros opt s Hreg.
    destruct (createField_invalid name opt s Hinv) as (err & Herr & Hrun).
    exists err. split; [done|]. unfold Index_CreateField. unfold_M. simpl.
    by rewrite Hreg.
  - intros opt s Hreg.
    destruct (createField_invalid name opt s Hinv) as (err & Herr & Hrun).
    exists err. split; [done|].
    unfold Index_CreateFieldIfNotExists. unfold_M. simpl. by rewrite Hreg.
Qed.



#[local] Instance name_le_trans : Transitive name_le.
Proof. intros f g h. unfold name_le. apply transitivity. Qed.

Lemma registered_iff (fields : gmap string Field) (f : Field) :
  f ∈ (map_to_list fields).*2 ↔ ∃ k, fields !! k = Some f.
Proof.
  rewrite list_elem_of_fmap. split.
  - intros ([k g] & -> & Hin). exists k.
    by apply elem_of_map_to_list in Hin.
  - intros [k Hk]. exists (k, f). split; [done|].
    by apply elem_of_map_to_list.
Qed.

End index_properties.

Lemma CreateField_existing_witness :
  Index_CreateField "color" Sample.rankedOptions
    {| this := Sample.shop; disk := Sample.disk0 |} =
    (inl (Sentinel ErrFieldExists),
     {| this := Sample.shop; disk := Sample.disk0 |}) ∧
  Index_CreateFieldIfNotExists "color" Sample.rankedOptions
    {| this := Sample.shop; disk := Sample.disk0 |} =
    (inr Sample.color, {| this := Sample.shop; disk := Sample.disk0 |}).
Proof.
  apply (CreateField_existing "color"). reflexivity.
Defined.

Lemma DeleteField_absent_and_present_witness :
  Index_DeleteField "price" {| this := Sample.shop; disk := Sample.disk0 |} =
    (inr (), {| this := Sample.shop; disk := Sample.disk0 |}) ∧
  ∃ s', Index_DeleteField "color"
          {| this := Sample.shop; disk := Sample.disk0 |} = (inr (), s') ∧
        i_fields (this s') !! "color" = None ∧
        ("data/shop/color" ∉ disk s').
Proof.
  split.
  - apply (DeleteField_absent_and_present "price" Sample.shop Sample.disk0).
    reflexivity.
  - destruct (proj2 (DeleteField_absent_and_present "color" Sample.shop
                       Sample.disk0)
                Sample.color (Sample.set_open false Sample.color)
                Sample.disk0)
      as (s' & Hrun & _ & Hreg & _ & Hdisk & _); [reflexivity..|].
    exists s'. split_and!; assumption.
Defined.

Lemma invalid_name_rejected_witness :
  invalid_name "Sales Q1" ∧
  NewIndex "data/Sales Q1" "Sales Q1" =
    inl (withMessage (Sentinel ErrName) "validating name") ∧
  ∃ err, field_validation_error err ∧
         Index_CreateField "Sales Q1" Sample.lruOptions
           {| this := Sample.shop; disk := Sample.disk0 |} =
           (inl err, {| this := Sample.shop; disk := Sample.disk0 |}).
Proof.
  assert (Hinv : invalid_name "Sales Q1").
  { right. exists (Ascii.ascii_of_nat 83). split; [|reflexivity].
    apply list_elem_of_In. left. reflexivity. }
  destruct (invalid_name_rejected "Sales Q1" Hinv) as (Hi & _ & Hf & _).
  split_and!; [exact Hinv|apply Hi|].
  apply (Hf Sample.lruOptions {| this := Sample.shop; disk := Sample.disk0 |}).
  reflexivity.
Defined.


(** ** Timestamps *)

Lemma time_Unix_nanoseconds (sec nsec : Z) :
  time_UnixNano (time_Unix sec nsec) = (sec * 1000000000 + nsec)%Z ∧
  (0 ≤ t_nsec (time_Unix sec nsec) < 1000000000)%Z.
Proof.
  unfold time_Unix, time_UnixNano.
  pose proof (Z.quot_rem' nsec 1000000000) as Hqr.
  assert (Hrem : (Z.abs (Z.rem nsec 1000000000) < 1000000000)%Z).
  { pose proof (Z.rem_bound_abs nsec 1000000000). lia. }
  pose proof (Z.rem_sign_nz nsec 1000000000) as Hsign.
  repeat case_bool_decide; simpl; split; try lia.
Qed.


Lemma convert_timestamps_from (pre : list (option Time)) (tss : list Z) :
  foldl (λ timestamps p,
           if bool_decide (p.2 = 0%Z) then timestamps
           else <[p.1 := Some (time_Unix 0 p.2)]> timestamps)
        (pre ++ replicate (length tss) None)
        (imap (λ k ts, (length pre + k, ts)) tss) =
  pre ++ (convert_timestamp <$> tss).
Proof.
  revert pre. induction tss as [|ts tss IH]; intros pre; simpl; [done|].
  rewrite Nat.add_0_r.
  assert (Hstep :
    (if bool_decide (ts = 0%Z) then pre ++ None :: replicate (length tss) None
     else <[length pre := Some (time_Unix 0 ts)]>
            (pre ++ None :: replicate (length tss) None)) =
    (pre ++ [convert_timestamp ts]) ++ replicate (length tss) None).
  { unfold convert_timestamp. case_bool_decide.
    - by rewrite <-app_assoc.
    - rewrite insert_app_r_alt by lia. rewrite Nat.sub_diag. simpl.
      by rewrite <-app_assoc. }
  rewrite Hstep.
  trans ((pre ++ [convert_timestamp ts]) ++ (convert_timestamp <$> tss));
    [|by rewrite <-app_assoc].
  rewrite <-(IH (pre ++ [convert_timestamp ts])).
  f_equal. apply imap_ext. intros k x _. simpl. rewrite length_app. simpl.
  f_equal. lia.
Qed.

Lemma convert_timestamps_map (tss : list Z) :
  convert_timestamps tss = convert_timestamp <$> tss.
Proof. apply (convert_timestamps_from [] tss). Qed.

(** ** Block summaries and the copy loop *)

Lemma checksum_of_Some (blocks : list AttrBlock) (id : Z) c :
  checksum_of blocks id = Some c → id ∈ ab_ID <$> blocks.
Proof.
  unfold checksum_of. intros Hc.
  destruct (head (filter _ blocks)) as [b|] eqn:Hb; [|done].
  apply head_Some_elem_of, list_elem_of_filter in Hb as [Hid Hin].
  subst id. by apply list_elem_of_fmap_2.
Qed.

(** A block is in the diff exactly when its checksum differs between the
    two summaries, a block that one side lacks having none there. *)
Lemma AttrBlocks_Diff_elem (a other : list AttrBlock) (id : Z) :
  id ∈ AttrBlocks_Diff a other ↔ checksum_of a id ≠ checksum_of other id.
Proof.
  unfold AttrBlocks_Diff. rewrite list_elem_of_filter, elem_of_remove_dups.
  split; [by intros [? _]|]. intros Hne. split; [done|].
  rewrite elem_of_app.
  destruct (checksum_of a id) as [c|] eqn:Ha.
  { left. by eapply checksum_of_Some. }
  destruct (checksum_of other id) as [c|] eqn:Ho; [|done].
  right. by eapply checksum_of_Some.
Qed.

Section copy_loop.
Context (store : AttrStore) (blockOf : Z → Z).
Hypothesis partition :
  ∀ b m k, as_BlockData store b = inr m → is_Some (m !! k) → blockOf k = b.

Lemma read_blocks_lookup (ids : list Z) :
  ∀ acc : gmap Z (gmap string AttrValue),
  (∀ b, b ∈ ids → ∃ m, as_BlockData store b = inr m) →
  ∃ res, read_blocks store ids acc = inr res ∧
    ∀ k v, res !! k = Some v ↔
      (∃ b m, b ∈ ids ∧ as_BlockData store b = inr m ∧ m !! k = Some v) ∨
      (acc !! k = Some v ∧
       ∀ b m, b ∈ ids → as_BlockData store b = inr m → m !! k = None).
Proof using partition.
  induction ids as [|b ids IH]; intros acc Hok; simpl.
  { exists acc. split; [done|]. intros k v. split.
    - intros Hk. right. split; [done|]. intros ?? []%elem_of_nil.
    - intros [(? & ? & []%elem_of_nil & _)|[Hk _]]; done. }
  destruct (Hok b) as [m Hm]; [by left|]. rewrite Hm.
  destruct (IH (m ∪ acc)) as (res & Hres & Hlookup).
  { intros b' Hb'. apply Hok. by right. }
  exists res. split; [done|]. intros k v. rewrite Hlookup. clear Hlookup.
  rewrite lookup_union_Some_raw. split.
  - intros [(b' & m' & Hb' & Hm' & Hk)|[[Hk|[Hnone Hk]] Hrest]].
    + left. exists b', m'. split; [by right|done].
    + left. exists b, m. split; [by left|done].
    + right. split; [done|]. intros b' m' [->|Hb']%elem_of_cons Hm'.
      * congruence.
      * by eapply Hrest.
  - intros [(b' & m' & [->|Hb']%elem_of_cons & Hm' & Hk)|[Hk Hrest]].
    + assert (m' = m) as -> by congruence.
      destruct (existsb (λ b'',
                  match as_BlockData store b'' with
                  | inr m'' => bool_decide (is_Some (m'' !! k))
                  | inl _ => false
                  end) ids) eqn:Hex.
      * apply existsb_exists in Hex as (b'' & Hb'' & Hsome).
        apply list_elem_of_In in Hb''.
        destruct (as_BlockData store b'') as [|m''] eqn:Hm''; [done|].
        apply bool_decide_eq_true in Hsome.
        assert (b'' = b) as ->.
        { rewrite <-(partition b'' m'' k), <-(partition b m k); eauto. }
        left. exists b, m. by rewrite Hk.
      * right. split; [by left|]. intros b'' m'' Hb'' Hm''.
        destruct (m'' !! k) as [v''|] eqn:Hk''; [|done].
        apply not_true_iff_false in Hex. exfalso. apply Hex.
        apply existsb_exists. exists b''.
        split; [by apply list_elem_of_In|].
        rewrite Hm''. apply bool_decide_eq_true. by rewrite Hk''.
    + left. by exists b', m'.
    + right. split.
      * right. split; [|done]. eapply Hrest; [by left|done].
      * intros b' m' Hb'. apply Hrest. by right.
Qed.
End copy_loop.

(** ** The API *)

Section api_properties.
Context `{Externals}.

Lemma validate_normal (f : apiMethod) (w : World) :
  c_State (w_cluster w) = ClusterStateNormal →
  f ∈ methodsNormal →
  API_validate f w = (inr (), w).
Proof.
  intros Hs Hf. unfold API_validate. unfold_M. simpl. rewrite Hs.
  assert (validate_in ClusterStateNormal f = None) as ->; [|done].
  apply validate_in_None. rewrite validAPIMethods_normal. simpl.
  set_solver.
Qed.

(** Steps over the call of [validate] at the head of a method that the
    normal state admits. *)
Ltac pass_validate :=
  erewrite bind_ok;
    [|apply wrap_ok, validate_normal;
      [done|unfold methodsNormal; set_solver]].

Lemma validate_rejected (f : apiMethod) (w : World) e :
  validate_in (c_State (w_cluster w)) f = Some e →
  API_validate f w = (inl e, w).
Proof. intros He. unfold API_validate. unfold_M. simpl. by rewrite He. Qed.

Lemma indexField_not_owner (index field : string) (slice : Z) (w : World) :
  Cluster_ownsSlice (w_cluster w) (API_LocalID w) index slice = false →
  API_indexField index field slice w =
    (inl (Sentinel ErrClusterDoesNotOwnSlice),
     add_log "node %s does not own slice %d of index %s"
       [AString (API_LocalID w); AUint slice; AString index] w).
Proof.
  intros Hown. unfold API_indexField, logger_Printf. unfold_M. simpl.
  by rewrite Hown.
Qed.

(** A method that the state of the cluster does not allow is stopped by
    [validate], before anything else is looked at. *)
Lemma Import_not_admitted (api : API) (req : ImportRequest) (w : World) e :
  validate_in (c_State (w_cluster w)) apiImport = Some e →
  API_Import api req w = (inl (withMessage e "validating api method"), w).
Proof.
  intros He. unfold API_Import.
  erewrite bind_err; [done|]. by apply wrap_err, validate_rejected.
Qed.

(** C4, as amended: a request of [Import], [ImportValue] or [ExportCSV]
    for a slice that the local node does not own is refused, and nothing is
    changed locally. When the cluster is [NORMAL], so that [validate] lets
    the method pass, the call fails with [ErrClusterDoesNotOwnSlice]
    ([Import] and [ImportValue] wrap it with "getting field"); the storage
    is left as it was, nothing is broadcast, and only a line is logged;
    this holds whatever the holder contains: the check comes before the
    index and the field are looked up. In every other state [validate]
    comes first: the call fails with the method-not-allowed error, wrapped
    with "validating api method", which is not [ErrClusterDoesNotOwnSlice];
    the ownership is not looked at, and the world is as it was. *)
Theorem not_owner_rejected (api : API) (w : World) (index field : string)
    (slice : Z) :
  Cluster_ownsSlice (w_cluster w) (API_LocalID w) index slice = false →
  let w' := add_log "node %s does not own slice %d of index %s"
              [AString (API_LocalID w); AUint slice; AString index] w in
  let wrapped :=
    withMessage (Sentinel ErrClusterDoesNotOwnSlice) "getting field" in
  let refused (m : apiMethod) :=
    withMessage
      (ApiMethodNotAllowedError
         (errors_Errorf "api method %s not allowed in state %s"
            [AMethod m; AString (c_State (w_cluster w))]))
      "validating api method" in
  (c_State (w_cluster w) = ClusterStateNormal →
   (∀ rows cols tss,
      API_Import api
        {| ir_Index := index; ir_Field := field; ir_Slice := slice;
           ir_RowIDs := rows; ir_ColumnIDs := cols; ir_Timestamps := tss |}
        w = (inl wrapped, w')) ∧
   (∀ cols vals,
      API_ImportValue api
        {| ivr_Index := index; ivr_Field := field; ivr_Slice := slice;
           ivr_ColumnIDs := cols; ivr_Values := vals |}
        w = (inl wrapped, w')) ∧
   API_ExportCSV api index field slice w =
     (inl (Sentinel ErrClusterDoesNotOwnSlice), w')) ∧
  (c_State (w_cluster w) ≠ ClusterStateNormal →
   (∀ rows cols tss,
      API_Import api
        {| ir_Index := index; ir_Field := field; ir_Slice := slice;
           ir_RowIDs := rows; ir_ColumnIDs := cols; ir_Timestamps := tss |}
        w = (inl (refused apiImport), w)) ∧
   (∀ cols vals,
      API_ImportValue api
        {| ivr_Index := index; ivr_Field := field; ivr_Slice := slice;
           ivr_ColumnIDs := cols; ivr_Values := vals |}
        w = (inl (refused apiImportValue), w)) ∧
   API_ExportCSV api index field slice w =
     (inl (refused apiExportCSV), w)) ∧
  errors_Cause wrapped = Sentinel ErrClusterDoesNotOwnSlice ∧
  (∀ m, errors_Cause (refused m) ≠ Sentinel ErrClusterDoesNotOwnSlice) ∧
  w_store w' = w_store w ∧ w_sent w' = w_sent w.
Proof.
  intros Hown w' wrapped refused. split_and!; try done.
  - intros Hs. split_and!.
    + intros rows cols tss. unfold API_Import.
      pass_validate.
      erewrite bind_err; [done|].
      apply wrap_err. simpl. by apply indexField_not_owner.
    + intros cols vals. unfold API_ImportValue.
      pass_validate.
      erewrite bind_err; [done|].
      apply wrap_err. simpl. by apply indexField_not_owner.
    + unfold API_ExportCSV.
      pass_validate.
      unfold logger_Printf. unfold_M. simpl. by rewrite Hown.
  - intros Hs.
    assert (∀ {A} m (k : M World A),
              m ∈ methodsNormal →
              (wrap "validating api method" (API_validate m);; k) w =
              (inl (refused m), w)) as Hrefused.
    { intros A m k Hm. erewrite bind_err; [done|].
      apply wrap_err, validate_rejected.
      by apply validate_in_rejects_normal. }
    split_and!; intros; apply Hrefused; unfold methodsNormal; set_solver.
Qed.

Lemma on_field_run index i field f op (w : World) err f' d' :
  op f (st_disk (w_store w)) = (err, f', d') →
  on_field index i field f op w =
    (inr err, set_store (store_field index i field f' d') w).
Proof.
  intros Hop. unfold on_field, on_index, call_entry. simpl.
  by rewrite Hop.
Qed.

Lemma indexField_found (index field : string) (slice : Z) (w : World) i f :
  Cluster_ownsSlice (w_cluster w) (API_LocalID w) index slice = true →
  Holder_Index (w_store w) index = Some i →
  Index_Field i field = Some f →
  API_indexField index field slice w =
    (inr (i, f),
     add_log "importing: %v %v %v"
       [AString index; AString field; AUint slice] w).
Proof.
  intros Hown Hi Hf. unfold API_indexField, logger_Printf. unfold_M. simpl.
  by rewrite Hown, Hi, Hf.
Qed.

(** C7: when [Import] reaches the field (the cluster is [NORMAL], the
    node owns the slice, the index and the field exist), the timestamps
    it hands to the import routine of the field, with the row ids and the
    column ids of the request, are as many as those of the request; at
    each position a zero timestamp has become no timestamp, and a
    non-zero timestamp [ts] the time that is [ts] nanoseconds after the
    epoch. The call returns what the routine returns, wrapped with
    "importing", and the storage is as the routine left it. *)
Theorem Import_converts_timestamps (api : API) (w : World)
    (req : ImportRequest) (i : Index) (f : Field) :
  c_State (w_cluster w) = ClusterStateNormal →
  Cluster_ownsSlice (w_cluster w) (API_LocalID w) (ir_Index req)
                    (ir_Slice req) = true →
  Holder_Index (w_store w) (ir_Index req) = Some i →
  Index_Field i (ir_Field req) = Some f →
  ∃ timestamps : list (option Time),
    length timestamps = length (ir_Timestamps req) ∧
    (∀ k ts, ir_Timestamps req !! k = Some ts →
       (ts = 0%Z → timestamps !! k = Some None) ∧
       (ts ≠ 0%Z →
        ∃ t, timestamps !! k = Some (Some t) ∧ time_UnixNano t = ts ∧
             (0 ≤ t_nsec t < 1000000000)%Z)) ∧
    ∀ err f' d',
      Field_Import (ir_RowIDs req) (ir_ColumnIDs req) timestamps f
                   (st_disk (w_store w)) = (err, f', d') →
      ∃ w', API_Import api req w =
              (from_option inl (inr ()) (errors_Wrap err "importing"), w') ∧
            w_store w' =
              store_field (ir_Index req) i (ir_Field req) f' d' (w_store w).
Proof.
  intros Hs Hown Hi Hf. exists (convert_timestamps (ir_Timestamps req)).
  rewrite convert_timestamps_map. split_and!.
  - by rewrite length_fmap.
  - intros k ts Hk. rewrite list_lookup_fmap, Hk. simpl.
    unfold convert_timestamp. split; intros Hts.
    + by rewrite bool_decide_eq_true_2.
    + rewrite bool_decide_eq_false_2 by done. eexists. split; [done|].
      destruct (time_Unix_nanoseconds 0 ts) as [Hnano Hbound].
      split; [|done]. rewrite Hnano. lia.
  - intros err f' d' Himp. unfold API_Import.
    pass_validate.
    erewrite bind_ok; [|by apply wrap_ok, indexField_found].
    simpl. rewrite convert_timestamps_map.
    erewrite bind_ok; [|by apply on_field_run].
    destruct err as [e|]; simpl.
    + eexists. split; [reflexivity|done].
    + eexists. split; [reflexivity|done].
Qed.

Lemma attr_diff_run (store : AttrStore) (remote localBlocks : list AttrBlock)
    (blockOf : Z → Z) (w : World) :
  as_Blocks store = inr localBlocks →
  (∀ b, b ∈ AttrBlocks_Diff localBlocks remote →
        ∃ m, as_BlockData store b = inr m) →
  (∀ b m k, as_BlockData store b = inr m → is_Some (m !! k) →
            blockOf k = b) →
  ∃ attrs, attr_diff store remote w = (inr attrs, w) ∧
    ∀ k v, attrs !! k = Some v ↔
      ∃ b m, checksum_of localBlocks b ≠ checksum_of remote b ∧
             as_BlockData store b = inr m ∧ m !! k = Some v.
Proof.
  intros Hblocks Hdata Hpart.
  destruct (read_blocks_lookup store blockOf Hpart
              (AttrBlocks_Diff localBlocks remote) ∅ Hdata)
    as (attrs & Hrun & Hlookup).
  exists attrs. split.
  - unfold attr_diff. rewrite Hblocks. unfold_M. simpl. by rewrite Hrun.
  - intros k v. rewrite Hlookup. split.
    + intros [(b & m & Hb & Hm & Hk)|[Hk _]]; [|done].
      exists b, m. by rewrite <-AttrBlocks_Diff_elem.
    + intros (b & m & Hb & Hm & Hk). left. exists b, m.
      by rewrite AttrBlocks_Diff_elem.
Qed.

(** C8: when the local store gives its block summary and the data of
    every block of the diff, and each id lies in one block only,
    [IndexAttrDiff] over the column attribute store of the index, and
    [FieldAttrDiff] over the row attribute store of the field, return the
    same map: an id has attributes in it exactly when they are its
    attributes in the data of a block whose checksum differs between the
    local and the remote summary (a block that one side lacks has no
    checksum there); no id of a block whose checksums agree is in it.
    The call changes nothing. *)
Theorem AttrDiff_returns_mismatched_blocks (api : API) (w : World)
    (indexName fieldName : string) (remote localBlocks : list AttrBlock)
    (store : AttrStore) (blockOf : Z → Z) :
  c_State (w_cluster w) = ClusterStateNormal →
  as_Blocks store = inr localBlocks →
  (∀ b, b ∈ AttrBlocks_Diff localBlocks remote →
        ∃ m, as_BlockData store b = inr m) →
  (∀ b m k, as_BlockData store b = inr m → is_Some (m !! k) →
            blockOf k = b) →
  ∃ attrs : gmap Z (gmap string AttrValue),
    (∀ i, Holder_Index (w_store w) indexName = Some i →
          Index_ColumnAttrStore i = store →
          API_IndexAttrDiff api indexName remote w = (inr attrs, w)) ∧
    (∀ i f, Holder_Field (w_store w) indexName fieldName = Some (i, f) →
            Field_RowAttrStore f = store →
            API_FieldAttrDiff api indexName fieldName remote w =
              (inr attrs, w)) ∧
    (∀ k v, attrs !! k = Some v ↔
       ∃ b m, checksum_of localBlocks b ≠ checksum_of remote b ∧
              as_BlockData store b = inr m ∧ m !! k = Some v) ∧
    (∀ b m k, checksum_of localBlocks b = checksum_of remote b →
              as_BlockData store b = inr m → is_Some (m !! k) →
              attrs !! k = None).
Proof.
  intros Hs Hblocks Hdata Hpart.
  destruct (attr_diff_run store remote localBlocks blockOf w
              Hblocks Hdata Hpart) as (attrs & Hrun & Hlookup).
  exists attrs. split_and!.
  - intros i Hi <-. unfold API_IndexAttrDiff.
    pass_validate.
    unfold_M. simpl. by rewrite Hi.
  - intros i f Hf <-. unfold API_FieldAttrDiff.
    pass_validate.
    unfold_M. simpl. by rewrite Hf.
  - done.
  - intros b m k Hsame Hm Hk.
    destruct (attrs !! k) as [v|] eqn:Hv; [|done].
    apply Hlookup in Hv as (b' & m' & Hdiff & Hm' & Hk').
    assert (b' = b) as ->.
    { rewrite <-(Hpart b' m' k), <-(Hpart b m k); eauto. }
    done.
Qed.

Lemma on_index_run {A} index i (m : M IState A) (w : World) r s' :
  m {| this := i; disk := st_disk (w_store w) |} = (r, s') →
  on_index index i m w = (r, set_store (store_index index s') w).
Proof. intros Hm. unfold on_index. by rewrite Hm. Qed.

Lemma on_store_run {A} (op : Storage → (error + A) * Storage)
    (w : World) r st' :
  op (w_store w) = (r, st') →
  on_store op w = (r, set_store (λ _, st') w).
Proof. intros Hop. unfold on_store. by rewrite Hop. Qed.

(** C3, as amended: when the broadcast fails after the local step has
    succeeded, [CreateIndex], [DeleteIndex], [CreateField], [DeleteField]
    and [DeleteView] return the error of the broadcast, wrapped; the
    storage stays as the local step left it, and it was so already when
    the message was handed to the broadcaster; the field that
    [CreateField] made is still registered. [RecalculateCaches]
    broadcasts first: the storage is untouched when the message is handed
    over, and stays untouched when the broadcast fails. *)
Theorem broadcast_failure_keeps_local_mutation (api : API) (w : World)
    (e : error) :
  c_State (w_cluster w) = ClusterStateNormal →
  (∀ m, SendSync (api_Broadcaster api) m = Some e) →
  (∀ name opts idx st',
     Holder_CreateIndex name opts (w_store w) = (inr idx, st') →
     fails_after_local (API_CreateIndex api name opts) w st'
       (CreateIndexMessage name opts)
       (withMessage e "sending CreateIndex message")) ∧
  (∀ name st',
     Holder_DeleteIndex name (w_store w) = (None, st') →
     fails_after_local (API_DeleteIndex api name) w st'
       (DeleteIndexMessage name)
       (withMessage e "sending DeleteIndex message")) ∧
  (∀ index name opts i f s',
     Holder_Index (w_store w) index = Some i →
     Index_CreateField name opts
       {| this := i; disk := st_disk (w_store w) |} = (inr f, s') →
     fails_after_local (API_CreateField api index name opts) w
       (store_index index s' (w_store w))
       (CreateFieldMessage index name opts)
       (withMessage e "sending CreateField message") ∧
     Holder_Field (store_index index s' (w_store w)) index name =
       Some (this s', f)) ∧
  (∀ index name i s',
     Holder_Index (w_store w) index = Some i →
     Index_DeleteField name
       {| this := i; disk := st_disk (w_store w) |} = (inr (), s') →
     fails_after_local (API_DeleteField api index name) w
       (store_index index s' (w_store w))
       (DeleteFieldMessage index name)
       (withMessage e "sending DeleteField message")) ∧
  (∀ index field view i f err f' d',
     Holder_Field (w_store w) index field = Some (i, f) →
     Field_DeleteView view f (st_disk (w_store w)) = (err, f', d') →
     err = None ∨ err = Some (Sentinel ErrInvalidView) →
     fails_after_local (API_DeleteView api index field view) w
       (store_field index i field f' d' (w_store w))
       (DeleteViewMessage index field view)
       (withMessage e "sending DeleteView message")) ∧
  fails_after_local (API_RecalculateCaches api) w (w_store w)
    RecalculateCachesMessage (withMessage e "broacasting message").
Proof.
  intros Hs Hdown. unfold fails_after_local. split_and!.
  - intros name opts idx st' Hlocal. unfold API_CreateIndex. pass_validate.
    erewrite bind_ok; [|by apply wrap_ok, on_store_run].
    unfold Broadcaster_SendSync, logger_Printf. unfold_M. simpl.
    rewrite Hdown. simpl. eauto.
  - intros name st' Hlocal. unfold API_DeleteIndex. pass_validate.
    erewrite bind_ok;
      [|apply wrap_ok, on_store_run; by rewrite Hlocal].
    unfold Broadcaster_SendSync, logger_Printf. unfold_M. simpl.
    rewrite Hdown. simpl. eauto.
  - intros index name opts i f s' Hi Hlocal. split.
    + unfold API_CreateField. pass_validate.
      unfold mbind at 1, M_bind at 1, gets at 1. simpl. rewrite Hi.
      erewrite bind_ok; [|by apply wrap_ok, on_index_run].
      unfold Broadcaster_SendSync, logger_Printf. unfold_M. simpl.
      rewrite Hdown. simpl. eauto.
    + unfold Holder_Field, Holder_Index, Index_Field, Index_field. simpl.
      rewrite lookup_insert_eq. simpl.
      by rewrite (CreateField_registers _ _ _ _ _ Hlocal).
  - intros index name i s' Hi Hlocal. unfold API_DeleteField. pass_validate.
    unfold mbind at 1, M_bind at 1, gets at 1. simpl. rewrite Hi.
    erewrite bind_ok; [|by apply wrap_ok, on_index_run].
    unfold Broadcaster_SendSync, logger_Printf. unfold_M. simpl.
    rewrite Hdown. simpl. eauto.
  - intros index field view i f err f' d' Hf Hlocal Herr.
    unfold API_DeleteView. pass_validate.
    unfold mbind at 1, M_bind at 1, gets at 1. simpl. rewrite Hf.
    erewrite bind_ok; [|by apply on_field_run].
    unfold Broadcaster_SendSync, logger_Printf. unfold_M.
    destruct Herr as [-> | ->]; simpl; rewrite Hdown; simpl; eauto.
  - unfold API_RecalculateCaches. pass_validate.
    unfold Broadcaster_SendSync. unfold_M. simpl. rewrite Hdown. eauto.
Qed.

(** When the broadcast succeeds, [RecalculateCaches] recalculates the
    caches of the holder afterwards. *)
Lemma RecalculateCaches_after_broadcast (api : API) (w : World) :
  c_State (w_cluster w) = ClusterStateNormal →
  SendSync (api_Broadcaster api) RecalculateCachesMessage = None →
  ∃ w', API_RecalculateCaches api w = (inr (), w') ∧
        w_store w' = Holder_RecalculateCaches (w_store w) ∧
        w_sent w' = w_sent w ++ [(RecalculateCachesMessage, w_store w)].
Proof.
  intros Hs Hup. unfold API_RecalculateCaches. pass_validate.
  unfold Broadcaster_SendSync, on_store. unfold_M. simpl. rewrite Hup.
  eauto.
Qed.
End api_properties.

Lemma not_owner_rejected_witness :
  API_ExportCSV Sample.upAPI "shop" "color" 3 (Sample.world "NORMAL") =
    (inl (Sentinel ErrClusterDoesNotOwnSlice),
     add_log "node %s does not own slice %d of index %s"
       [AString "node0"; AUint 3; AString "shop"] (Sample.world "NORMAL")) ∧
  API_ExportCSV Sample.upAPI "shop" "color" 3 (Sample.world "RESIZING") =
    (inl (withMessage
            (ApiMethodNotAllowedError
               (errors_Errorf "api method %s not allowed in state %s"
                  [AMethod apiExportCSV; AString "RESIZING"]))
            "validating api method"),
     Sample.world "RESIZING").
Proof.
  split.
  - destruct (not_owner_rejected Sample.upAPI (Sample.world "NORMAL")
                "shop" "color" 3) as (Hnormal & _); [reflexivity|].
    destruct Hnormal as (_ & _ & Hexport); [reflexivity|]. exact Hexport.
  - destruct (not_owner_rejected Sample.upAPI (Sample.world "RESIZING")
                "shop" "color" 3) as (_ & Hother & _); [reflexivity|].
    destruct Hother as (_ & _ & Hexport); [discriminate|]. exact Hexport.
Defined.

(** C4, as stated, fails when the cluster is not [NORMAL]: on the sample
    node, which does not own slice 3, a request of [Import] or
    [ImportValue] while the cluster is [RESIZING], or of [ExportCSV]
    while it is [STARTING], does not fail with [ErrClusterDoesNotOwnSlice],
    bare or wrapped: [validate] refuses the method before the ownership
    is looked at. *)
Lemma not_owner_unchecked_outside_normal :
  Cluster_ownsSlice (w_cluster (Sample.world "RESIZING"))
    (API_LocalID (Sample.world "RESIZING")) "shop" 3 = false ∧
  Cluster_ownsSlice (w_cluster (Sample.world "STARTING"))
    (API_LocalID (Sample.world "STARTING")) "shop" 3 = false ∧
  ¬ (∃ e w',
       API_Import Sample.upAPI
         {| ir_Index := "shop"; ir_Field := "color"; ir_Slice := 3%Z;
            ir_RowIDs := [1]%Z; ir_ColumnIDs := [5]%Z;
            ir_Timestamps := [0]%Z |}
         (Sample.world "RESIZING") = (inl e, w') ∧
       errors_Cause e = Sentinel ErrClusterDoesNotOwnSlice) ∧
  ¬ (∃ e w',
       API_ImportValue Sample.upAPI
         {| ivr_Index := "shop"; ivr_Field := "color"; ivr_Slice := 3%Z;
            ivr_ColumnIDs := [5]%Z; ivr_Values := [8]%Z |}
         (Sample.world "RESIZING") = (inl e, w') ∧
       errors_Cause e = Sentinel ErrClusterDoesNotOwnSlice) ∧
  ¬ (∃ e w',
       API_ExportCSV Sample.upAPI "shop" "color" 3
         (Sample.world "STARTING") = (inl e, w') ∧
       errors_Cause e = Sentinel ErrClusterDoesNotOwnSlice).
Proof.
  split_and!; [reflexivity|reflexivity|..];
    intros (e & w' & Hrun & Hcause); vm_compute in Hrun;
    injection Hrun as <- _; discriminate Hcause.
Qed.

Lemma Import_converts_timestamps_witness :
  ∃ timestamps : list (option Time),
    length timestamps = 3%nat ∧
    (∀ k ts, [0; 1500000000; -1]%Z !! k = Some ts →
       (ts = 0%Z → timestamps !! k = Some None) ∧
       (ts ≠ 0%Z →
        ∃ t, timestamps !! k = Some (Some t) ∧ time_UnixNano t = ts ∧
             (0 ≤ t_nsec t < 1000000000)%Z)).
Proof.
  destruct (Import_converts_timestamps Sample.upAPI (Sample.world "NORMAL")
              {| ir_Index := "shop"; ir_Field := "color"; ir_Slice := 0%Z;
                 ir_RowIDs := [1; 2; 3]%Z; ir_ColumnIDs := [5; 9; 11]%Z;
                 ir_Timestamps := [0; 1500000000; -1]%Z |}
              Sample.shop Sample.color)
    as (timestamps & Hlen & Hat & _); [reflexivity..|].
  exists timestamps. split; [exact Hlen|exact Hat].
Defined.

Lemma AttrDiff_returns_mismatched_blocks_witness :
  ∃ attrs : gmap Z (gmap string AttrValue),
    API_IndexAttrDiff Sample.upAPI "catalog" Sample.remoteBlocks
      Sample.catalogWorld = (inr attrs, Sample.catalogWorld) ∧
    attrs !! 345%Z = Some Sample.attrs345 ∧
    attrs !! 7%Z = None.
Proof.
  destruct (AttrDiff_returns_mismatched_blocks Sample.upAPI
              Sample.catalogWorld "catalog" "" Sample.remoteBlocks
              [ {| ab_ID := 0; ab_Checksum := [Byte.x0a] |};
                {| ab_ID := 3; ab_Checksum := [Byte.x0b] |} ]
              Sample.columnStore (λ k, (k `div` 100)%Z))
    as (attrs & Hindex & _ & Hin & Hout).
  - reflexivity.
  - reflexivity.
  - intros b _. simpl. repeat case_bool_decide; eauto.
  - intros b m k. simpl.
    repeat case_bool_decide; intros [= <-] [v Hv]; subst;
      try (apply lookup_singleton_Some in Hv as [<- _]; reflexivity);
      by rewrite lookup_empty in Hv.
  - exists attrs. split_and!.
    + apply (Hindex Sample.catalog); reflexivity.
    + apply Hin. exists 3%Z, {[345%Z := Sample.attrs345]}.
      split_and!; [discriminate|reflexivity|reflexivity].
    + apply (Hout 0%Z {[7%Z := Sample.attrs7]}); [reflexivity..|].
      eexists. reflexivity.
Defined.

Lemma broadcast_failure_keeps_local_mutation_witness :
  (∃ st',
     fails_after_local
       (API_CreateIndex Sample.downAPI "users" mkIndexOptions)
       (Sample.world "NORMAL") st' (CreateIndexMessage "users" mkIndexOptions)
       (withMessage Sample.unreachable "sending CreateIndex message") ∧
     st_indexes st' !! "users" = Some (Sample.new_index "users")) ∧
  fails_after_local (API_RecalculateCaches Sample.downAPI)
    (Sample.world "NORMAL") Sample.store0 RecalculateCachesMessage
    (withMessage Sample.unreachable "broacasting message").
Proof.
  destruct (broadcast_failure_keeps_local_mutation Sample.downAPI
              (Sample.world "NORMAL") Sample.unreachable eq_refl
              (λ _, eq_refl))
    as (Hcreate & _ & _ & _ & _ & Hrecalc).
  split; [|exact Hrecalc].
  eexists. split.
  - apply (Hcreate "users" mkIndexOptions (Sample.new_index "users")).
    reflexivity.
  - reflexivity.
Defined.

(** C3, as stated, fails for [RecalculateCaches]: on the sample node with
    unreachable peers the call does not leave the storage with the caches
    recalculated, and what the broadcaster was handed was not the storage
    with the caches recalculated: the broadcast comes first, and its
    failure ends the call. *)
Lemma RecalculateCaches_broadcasts_before_local :
  ¬ ∃ err,
      fails_after_local (API_RecalculateCaches Sample.downAPI)
        (Sample.world "NORMAL")
        (Holder_RecalculateCaches Sample.store0)
        RecalculateCachesMessage err.
Proof.
  intros (err & w' & Hrun & Hstore & _).
  assert (API_RecalculateCaches Sample.downAPI (Sample.world "NORMAL") =
          (inl (withMessage Sample.unreachable "broacasting message"),
           add_sent RecalculateCachesMessage (Sample.world "NORMAL")))
    as Hreal by reflexivity.
  rewrite Hreal in Hrun. injection Hrun as _ <-. simpl in Hstore.
  assert ("data/.cache" ∈ st_disk Sample.store0) as Hin.
  { rewrite Hstore. simpl. set_solver. }
  revert Hin. apply (bool_decide_unpack _). vm_compute. exact I.
Qed.

(** ** Runs on the sample node *)

Example ExportCSV_sample :
  API_ExportCSV Sample.upAPI "shop" "color" 0 (Sample.world "NORMAL") =
    (inr ("1,5" +:+ newline +:+ "2,9" +:+ newline), Sample.world "NORMAL").
Proof. reflexivity. Qed.

Example Query_while_resizing :
  API_validate apiQuery (Sample.world "RESIZING") =
    (inl (ApiMethodNotAllowedError
            (errors_Errorf "api method %s not allowed in state %s"
               [AMethod apiQuery; AString "RESIZING"])),
     Sample.world "RESIZING") ∧
  API_validate apiResizeAbort (Sample.world "RESIZING") =
    (inr (), Sample.world "RESIZING") ∧
  API_validate apiQuery (Sample.world "NORMAL") =
    (inr (), Sample.world "NORMAL").
Proof. split_and!; reflexivity. Qed.

Example Import_while_starting :
  ∃ e, API_Import Sample.upAPI
         {| ir_Index := "shop"; ir_Field := "color"; ir_Slice := 3%Z;
            ir_RowIDs := []; ir_ColumnIDs := []; ir_Timestamps := [] |}
         (Sample.world "STARTING") =
       (inl (withMessage (ApiMethodNotAllowedError e)
               "validating api method"), Sample.world "STARTING").
Proof. eexists. reflexivity. Qed.

Example CreateField_then_Field :
  ∃ f s', Index_CreateField "price" Sample.rankedOptions
            {| this := Sample.shop; disk := Sample.disk0 |} = (inr f, s') ∧
          Index_Field (this s') "price" = Some f ∧
          f_options f = Sample.rankedOptions ∧
          "data/shop/price" ∈ disk s'.
Proof.
  eexists _, _. split_and!; [reflexivity..|].
  apply (bool_decide_unpack _). vm_compute. exact I.
Qed.

Example time_Unix_negative :
  time_Unix 0 (-1) = {| t_sec := -1; t_nsec := 999999999 |}.
Proof. reflexivity. Qed.

Example Diff_sample :
  AttrBlocks_Diff
    [ {| ab_ID := 0; ab_Checksum := [Byte.x0a] |};
      {| ab_ID := 3; ab_Checksum := [Byte.x0b] |} ]
    [ {| ab_ID := 0; ab_Checksum := [Byte.x0a] |};
      {| ab_ID := 3; ab_Checksum := [Byte.xff] |};
      {| ab_ID := 7; ab_Checksum := [Byte.x01] |} ] = [3; 7]%Z.
Proof. reflexivity. Qed.

(** * Properties of the rest of index.go and of more of api.go *)

(** ** Timestamps of an import *)

Lemma hasTime_true (a : list (option Time)) :
  hasTime a = true ↔ ∃ t, Some t ∈ a.
Proof.
  induction a as [|[t|] a IH]; simpl.
  - split; [done|]. intros [t []%elem_of_nil].
  - split; [|done]. intros _. exists t. by left.
  - rewrite IH. split.
    + intros [t Ht]. exists t. by right.
    + intros [t [[=]|Ht]%elem_of_cons]. by exists t.
Qed.

(** X1: [hasTime] answers true exactly when some entry is not nil; on the
    timestamps that [Import] converts it answers true exactly when the
    request holds a non-zero timestamp. *)
Theorem hasTime_of_converted_timestamps :
  (∀ a : list (option Time), hasTime a = true ↔ ∃ t, Some t ∈ a) ∧
  (∀ tss : list Z,
     hasTime (convert_timestamps tss) = true ↔ ∃ ts, ts ∈ tss ∧ ts ≠ 0%Z).
Proof.
  split; [apply hasTime_true|]. intros tss.
  rewrite hasTime_true, convert_timestamps_map. split.
  - intros [t (ts & Hts & Hin)%list_elem_of_fmap]. exists ts. split; [done|].
    intros ->. unfold convert_timestamp in Hts.
    by rewrite bool_decide_eq_true_2 in Hts.
  - intros (ts & Hin & Hne). exists (time_Unix 0 ts).
    apply list_elem_of_fmap. exists ts. split; [|done].
    unfold convert_timestamp. by rewrite bool_decide_eq_false_2.
Qed.

(** ** The largest slice of an index *)

Section more_index_properties.
Context `{Externals} `{MoreExternals}.

Lemma MaxSlice_loop (a : list Field) (m : Z) :
  let r := foldl (λ max f,
                    if bool_decide (Field_MaxSlice f > max)%Z
                    then Field_MaxSlice f else max) m a in
  (m ≤ r)%Z ∧ (∀ f, f ∈ a → (Field_MaxSlice f ≤ r)%Z) ∧
  (r = m ∨ ∃ f, f ∈ a ∧ r = Field_MaxSlice f).
Proof.
  revert m. induction a as [|f a IH]; intros m; simpl.
  { split_and!; [lia| |by left]. intros f []%elem_of_nil. }
  destruct (IH (if bool_decide (Field_MaxSlice f > m)%Z
                then Field_MaxSlice f else m)) as (Hm & Hall & Hatt).
  case_bool_decide as Hgt.
  - split_and!; [lia| |].
    + intros g [->|Hg]%elem_of_cons; [done|]. by apply Hall.
    + destruct Hatt as [->|(g & Hg & ->)].
      * right. exists f. split; [by left|done].
      * right. exists g. split; [by right|done].
  - split_and!; [done| |].
    + intros g [->|Hg]%elem_of_cons; [lia|]. by apply Hall.
    + destruct Hatt as [->|(g & Hg & ->)]; [by left|].
      right. exists g. split; [by right|done].
Qed.

(** X2: [MaxSlice] returns the least upper bound of the remote maximum
    and of the largest slices of the registered fields: it is at least
    each of them and is one of them; so it is the same number for every
    order in which the loop visits the registry. On the nil index it
    returns 0. *)
Theorem MaxSlice_least_upper_bound (i : Index) (a : list Field) :
  range_order (i_fields i) a →
  (i_remoteMaxSlice i ≤ Index_MaxSlice_of a (Some i))%Z ∧
  (∀ k f, i_fields i !! k = Some f →
          (Field_MaxSlice f ≤ Index_MaxSlice_of a (Some i))%Z) ∧
  (Index_MaxSlice_of a (Some i) = i_remoteMaxSlice i ∨
   ∃ k f, i_fields i !! k = Some f ∧
          Index_MaxSlice_of a (Some i) = Field_MaxSlice f) ∧
  Index_MaxSlice_of a (Some i) = Index_MaxSlice (Some i) ∧
  Index_MaxSlice None = 0%Z.
Proof.
  intros Ha.
  assert (Hbound : ∀ b, range_order (i_fields i) b →
    (i_remoteMaxSlice i ≤ Index_MaxSlice_of b (Some i))%Z ∧
    (∀ k f, i_fields i !! k = Some f →
            (Field_MaxSlice f ≤ Index_MaxSlice_of b (Some i))%Z) ∧
    (Index_MaxSlice_of b (Some i) = i_remoteMaxSlice i ∨
     ∃ k f, i_fields i !! k = Some f ∧
            Index_MaxSlice_of b (Some i) = Field_MaxSlice f)).
  { intros b Hb. unfold Index_MaxSlice_of.
    destruct (MaxSlice_loop b (i_remoteMaxSlice i)) as (Hm & Hall & Hatt).
    split_and!; [done| |].
    - intros k f Hf. apply Hall. rewrite Hb. apply registered_iff. eauto.
    - destruct Hatt as [?|(f & Hf & ?)]; [by left|]. right.
      rewrite Hb in Hf. apply registered_iff in Hf as [k Hk]. eauto. }
  assert (Hle : ∀ b c, range_order (i_fields i) b →
    range_order (i_fields i) c →
    (Index_MaxSlice_of b (Some i) ≤ Index_MaxSlice_of c (Some i))%Z).
  { intros b c Hb Hc.
    destruct (Hbound b Hb) as (_ & _ & Hatt).
    destruct (Hbound c Hc) as (Hm & Hall & _).
    destruct Hatt as [Heq|(k & f & Hf & Heq)]; rewrite Heq; [done|].
    by eapply Hall. }
  destruct (Hbound a Ha) as (Hm & Hall & Hatt).
  split_and!; [done..| |done].
  unfold Index_MaxSlice.
  apply Z.le_antisymm; apply Hle; done || by unfold range_order.
Qed.

(** X3: [SetRemoteMaxSlice] overwrites the remote maximum, also with a
    smaller number: afterwards [MaxSlice] returns the new number whenever
    no registered field has a larger slice, and the registry is as
    before. *)
Theorem SetRemoteMaxSlice_overwrites (newmax : Z) (s : IState)
    (a : list Field) :
  range_order (i_fields (this s)) a →
  (∀ k f, i_fields (this s) !! k = Some f → (Field_MaxSlice f ≤ newmax)%Z) →
  ∃ s', Index_SetRemoteMaxSlice newmax s = (inr (), s') ∧
        i_fields (this s') = i_fields (this s) ∧ disk s' = disk s ∧
        Index_MaxSlice_of a (Some (this s')) = newmax.
Proof.
  intros Ha Hle. eexists. split; [reflexivity|]. simpl.
  split_and!; [done..|].
  unfold Index_MaxSlice_of. simpl.
  destruct (MaxSlice_loop a newmax) as (Hm & Hall & [->|(f & Hf & Hr)]);
    [done|].
  rewrite Ha in Hf. apply registered_iff in Hf as [k Hk].
  specialize (Hle _ _ Hk). lia.
Qed.

(** ** Creating and deleting fields *)

Lemma this_set_fields_insert_delete (name : string) (f f' : Field)
    (s : IState) (d : FS) :
  i_fields (this s) !! name = None →
  this (set_fields (delete name)
          (set_fields (insert name f')
             {| this := this (set_fields (insert name f) s); disk := d |})) =
  this s.
Proof.
  intros Hnone. destruct s as [[] ?]. simpl in *. f_equal.
  rewrite insert_insert_eq, delete_insert_eq. by apply delete_id.
Qed.

Lemma createField_outcome (name : string) (opt : FieldOptions)
    (s s' : IState) r :
  Index_createField name opt s = (r, s') →
  match r with
  | inl _ => this s' = this s
  | inr f => this s' = this (set_fields (insert name f) s)
  end.
Proof.
  unfold Index_createField. case_decide; [by intros [= <- <-]|].
  destruct (negb _ && negb _); [by intros [= <- <-]|].
  unfold_M. destruct (FieldOptions_Validate opt); [by intros [= <- <-]|].
  simpl. destruct (Index_newField _ _ _) as [|f0]; [by intros [= <- <-]|].
  simpl. unfold call_local. simpl.
  destruct (Field_Open f0 _) as [[[e|] f1] d1]; [by intros [= <- <-]|].
  simpl.
  destruct (Field_applyOptions opt f1 d1) as [[[e|] f2] d2]; simpl.
  { destruct (Field_Close f2 d2) as [[? ?] ?]. by intros [= <- <-]. }
  destruct (Field_saveMeta f2 d2) as [[[e|] f3] d3]; simpl.
  { destruct (Field_Close f3 d3) as [[? ?] ?]. by intros [= <- <-]. }
  by intros [= <- <-].
Qed.

Lemma CreateField_outcome (name : string)
    (opt : FieldOptions) (s s' : IState) r :
  Index_CreateField name opt s = (r, s') →
  match r with
  | inl _ => this s' = this s
  | inr f =>
      i_fields (this s) !! name = None ∧
      this s' = this (set_fields (insert name f) s) ∧
      i_fields (this s') !! name = Some f ∧
      ∀ k, k ≠ name → i_fields (this s') !! k = i_fields (this s) !! k
  end.
Proof.
  unfold Index_CreateField. unfold_M. simpl.
  destruct (i_fields (this s) !! name) eqn:Hreg; [by intros [= <- <-]|].
  intros Hrun. pose proof (createField_outcome _ _ _ _ _ Hrun) as Hout.
  destruct r as [e|f]; [done|]. rewrite Hout. simpl.
  split_and!; [done..|by rewrite lookup_insert_eq|].
  intros k Hk. by rewrite lookup_insert_ne.
Qed.

(** X4: [CreateField] registers nothing when it returns an error: the
    index is then exactly as before, whichever step failed. When it
    returns a field, the name was not registered before, and the index
    differs from the old one by that entry alone. *)
Theorem CreateField_registers_only_on_success (name : string)
    (opt : FieldOptions) (s s' : IState) r :
  Index_CreateField name opt s = (r, s') →
  match r with
  | inl _ => this s' = this s
  | inr f =>
      i_fields (this s) !! name = None ∧
      this s' = this (set_fields (insert name f) s) ∧
      i_fields (this s') !! name = Some f ∧
      ∀ k, k ≠ name → i_fields (this s') !! k = i_fields (this s) !! k
  end.
Proof. apply CreateField_outcome. Qed.

Lemma CreateFieldIfNotExists_registers (name : string) (opt : FieldOptions)
    (s s' : IState) (f : Field) :
  Index_CreateFieldIfNotExists name opt s = (inr f, s') →
  i_fields (this s') !! name = Some f.
Proof.
  unfold Index_CreateFieldIfNotExists. unfold_M. simpl.
  destruct (i_fields (this s) !! name) eqn:Hreg.
  - by intros [= <- <-].
  - apply createField_registers.
Qed.

(** X5: [CreateFieldIfNotExists] is idempotent: once it has returned a
    field for a name, calling it again for that name, with whatever
    options, returns the same field and changes neither the index nor the
    disk; [CreateField] for that name then fails with [ErrFieldExists]. *)
Theorem CreateFieldIfNotExists_idempotent (name : string)
    (opt opt' : FieldOptions) (s s' : IState) (f : Field) :
  Index_CreateFieldIfNotExists name opt s = (inr f, s') →
  Index_CreateFieldIfNotExists name opt' s' = (inr f, s') ∧
  Index_CreateField name opt' s' = (inl (Sentinel ErrFieldExists), s').
Proof.
  intros Hreg%CreateFieldIfNotExists_registers.
  unfold Index_CreateFieldIfNotExists, Index_CreateField. unfold_M. simpl.
  by rewrite Hreg.
Qed.

(** X6: deleting a field that [CreateField] has just created gives back
    the index as it was before the creation, when closing the field and
    removing its directory succeed; the directory of the field is then
    not on the disk. *)
Theorem CreateField_then_DeleteField (name : string) (opt : FieldOptions)
    (s s1 : IState) (f f' : Field) (d2 : FS) :
  Index_CreateField name opt s = (inr f, s1) →
  Field_Close f (disk s1) = (None, f', d2) →
  os_RemoveAll_failure (Index_FieldPath (this s1) name) d2 = None →
  ∃ s2, Index_DeleteField name s1 = (inr (), s2) ∧
        this s2 = this s ∧
        (Index_FieldPath (this s) name ∉ disk s2).
Proof.
  intros Hcreate Hclose Hrm.
  destruct (CreateField_outcome _ _ _ _ _ Hcreate)
    as (Hnone & Hthis & Hreg & _).
  unfold Index_DeleteField, Index_field, call_entry, os_RemoveAll.
  unfold_M. simpl. rewrite Hreg. simpl. rewrite Hclose. simpl.
  rewrite Hrm. eexists. split; [reflexivity|]. simpl. split.
  - rewrite Hthis. by apply this_set_fields_insert_delete.
  - rewrite Hthis. destruct s as [[] ?]. simpl.
    rewrite elem_of_filter. intros [Hn _]. apply Hn. by rewrite under_refl.
Qed.


(** ** Opening and closing an index *)




Lemma newField_name (i : Index) (path name : string) (f : Field) :
  Index_newField i path name = inr f → Field_Name f = name.
Proof.
  unfold Index_newField, NewField. destruct (ValidateName name); [done|].
  by intros [= <-].
Qed.

Lemma openFields_loop_spec (fis : list FileInfo) :
  keeps_name Field_Open →
  ∀ (s s' : IState) r,
  openFields_loop fis s = (r, s') →
  (∀ k, is_Some (i_fields (this s) !! k) → is_Some (i_fields (this s') !! k)) ∧
  (∀ k, is_Some (i_fields (this s') !! k) →
        is_Some (i_fields (this s) !! k) ∨
        ∃ fi, fi ∈ fis ∧ fi_IsDir fi = true ∧
              k = filepath_Base (fi_Name fi)) ∧
  (r = inr () →
   ∀ fi, fi ∈ fis → fi_IsDir fi = true →
         is_Some (i_fields (this s') !! filepath_Base (fi_Name fi))) ∧
  (∀ e, r = inl e →
        e = Sentinel ErrName ∨
        ∃ fi c, fi ∈ fis ∧ fi_IsDir fi = true ∧
                e = fmt_Errorf "open frame: name=%s, err=%s"
                      [AString (filepath_Base (fi_Name fi)); AError c]) ∧
  (names_are_keys (i_fields (this s)) → names_are_keys (i_fields (this s'))).
Proof.
  intros Hopen. induction fis as [|fi fis IH]; intros s s' r; simpl.
  { intros [= <- <-]. split_and!; [done| | |done|done].
    - intros k Hk. by left.
    - intros _ fi []%elem_of_nil. }
  destruct (fi_IsDir fi) eqn:Hdir; simpl.
  2:{ intros Hrun. destruct (IH _ _ _ Hrun) as (Hmono & Hnew & Hall & Herr & Hk).
      split_and!; [done| | | |done].
      - intros k Hk'. destruct (Hnew k Hk') as [?|(fi' & ? & ? & ?)]; [by left|].
        right. exists fi'. split; [by right|done].
      - intros Hr fi' [->|Hin]%elem_of_cons Hd; [congruence|]. by apply Hall.
      - intros e He. destruct (Herr e He) as [?|(fi' & c & ? & ? & ?)];
          [by left|]. right. exists fi', c. split; [by right|done]. }
  unfold_M. simpl.
  destruct (Index_newField (this s) _ _) as [e0|fld] eqn:Hnew; simpl.
  { intros [= <- <-]. split_and!; [done| |done| |done].
    - intros k Hk. by left.
    - intros e [= <-]. by left. }
  apply newField_name in Hnew.
  unfold call_local. simpl. specialize (Hopen fld (disk s)).
  destruct (Field_Open fld (disk s)) as [[[c|] fld'] d'] eqn:Hrun0; simpl in *.
  { intros [= <- <-]. simpl. split_and!; [done| |done| |done].
    - intros k Hk. by left.
    - intros e [= <-]. right. exists fi, c.
      split; [by left|]. split; [done|]. by rewrite Hopen, Hnew. }
  rewrite Hopen, Hnew. intros Hrun.
  destruct (IH _ _ _ Hrun) as (Hmono & Hnew' & Hall & Herr & Hk). simpl in *.
  split_and!.
  - intros k Hk'. apply Hmono. rewrite lookup_insert. case_decide; eauto.
  - intros k Hk'. destruct (Hnew' k Hk') as [Hold|(fi' & ? & ? & ?)].
    + rewrite lookup_insert in Hold. case_decide as Heq; [|by left].
      right. exists fi. split; [by left|done].
    + right. exists fi'. split; [by right|done].
  - intros Hr fi' [->|Hin]%elem_of_cons Hd; [|by apply Hall].
    apply Hmono. rewrite lookup_insert_eq. eauto.
  - intros e He. destruct (Herr e He) as [?|(fi' & c & ? & ? & ?)];
      [by left|]. right. exists fi', c. split; [by right|done].
  - intros Hkeys. apply Hk. intros k g. rewrite lookup_insert.
    case_decide as Heq; [|apply Hkeys].
    intros [= <-]. by rewrite Hopen, Hnew.
Qed.


Lemma Close_loop_spec (a : list (string * Field)) :
  ∀ (s s' : IState) r,
  (∀ k f, (k, f) ∈ a → k ∈ dom (i_fields (this s))) →
  Close_loop a s = (r, s') →
  dom (i_fields (this s')) = dom (i_fields (this s)) ∧
  (∀ e, r = inl e → ∃ c, e = withMessage c "closing frame") ∧
  (keeps_name Field_Close →
   (∀ k f, (k, f) ∈ a → Field_Name f = k) →
   names_are_keys (i_fields (this s)) → names_are_keys (i_fields (this s'))).
Proof.
  induction a as [|[name f] a IH]; intros s s' r Hin; simpl.
  { intros [= <- <-]. split_and!; [done|done|auto]. }
  unfold_M. unfold call_entry. simpl.
  assert (Hdom : ∀ g : Field,
    dom (<[name := g]> (i_fields (this s))) = dom (i_fields (this s))).
  { intros g. rewrite dom_insert_L.
    assert (name ∈ dom (i_fields (this s))) by (eapply Hin; by left).
    set_solver. }
  assert (Hkeep : ∀ g : Field, Field_Name g = name →
    names_are_keys (i_fields (this s)) →
    names_are_keys (<[name := g]> (i_fields (this s)))).
  { intros g Hg Hkeys k h. rewrite lookup_insert.
    case_decide as Heq; [|apply Hkeys]. intros [= <-]. by subst. }
  destruct (Field_Close f (disk s)) as [[[c|] f'] d'] eqn:Hclose; simpl.
  { intros [= <- <-]. simpl. split_and!; [done|intros e [= <-]; eauto|].
    intros Hk Hnames Hkeys. apply Hkeep; [|done].
    specialize (Hk f (disk s)). rewrite Hclose in Hk. simpl in Hk.
    rewrite Hk. apply Hnames. by left. }
  intros Hrun. apply IH in Hrun as (Hd & Herr & Hkeys').
  2:{ simpl. intros k g Hg. rewrite Hdom. eapply Hin. by right. }
  simpl in *. split_and!; [by rewrite Hd|done|].
  intros Hk Hnames Hkeys. apply Hkeys'; [done| |].
  - intros k g Hg. apply Hnames. by right.
  - apply Hkeep; [|done].
    specialize (Hk f (disk s)). rewrite Hclose in Hk. simpl in Hk.
    rewrite Hk. apply Hnames. by left.
Qed.


(** X10: the registry keeps every field under its own name, as long as
    the methods of a field leave its name alone: [CreateField],
    [CreateFieldIfNotExists], [DeleteField], [openFields] and [Close]
    preserve this, whatever they return. *)
Theorem registry_keeps_names_as_keys (s : IState) :
  keeps_name Field_Open → (∀ opt, keeps_name (Field_applyOptions opt)) →
  keeps_name Field_saveMeta → keeps_name Field_Close →
  names_are_keys (i_fields (this s)) →
  (∀ name opt r s',
     Index_CreateField name opt s = (r, s') →
     names_are_keys (i_fields (this s'))) ∧
  (∀ name opt r s',
     Index_CreateFieldIfNotExists name opt s = (r, s') →
     names_are_keys (i_fields (this s'))) ∧
  (∀ name r s',
     Index_DeleteField name s = (r, s') →
     names_are_keys (i_fields (this s'))) ∧
  (∀ r s',
     Index_openFields s = (r, s') → names_are_keys (i_fields (this s'))) ∧
  (∀ a r s',
     range_entries (i_fields (this s)) a →
     Index_Close_of a s = (r, s') → names_are_keys (i_fields (this s'))).
Proof.
  intros Hopen Happly Hsave Hclose Hkeys.
  assert (Hcreate : ∀ name opt r s',
    Index_createField name opt s = (r, s') →
    names_are_keys (i_fields (this s'))).
  { intros name opt [e|f] s' Hrun.
    - by rewrite (createField_outcome _ _ _ _ _ Hrun).
    - by eapply createField_names_are_keys. }
  split_and!.
  - intros name opt r s'. unfold Index_CreateField. unfold_M. simpl.
    destruct (i_fields (this s) !! name); [by intros [= <- <-]|].
    apply Hcreate.
  - intros name opt r s'. unfold Index_CreateFieldIfNotExists. unfold_M.
    simpl. destruct (i_fields (this s) !! name); [by intros [= <- <-]|].
    apply Hcreate.
  - intros name r s'. by apply DeleteField_names_are_keys.
  - intros r s'. unfold Index_openFields. unfold_M. simpl.
    destruct (os_Open_error _ _); simpl; [by intros [= <- <-]|].
    destruct (File_Readdir _ _) as [|fis]; simpl; [by intros [= <- <-]|].
    intros Hrun. by apply (openFields_loop_spec fis Hopen _ _ _ Hrun).
  - intros a r s' Ha. unfold Index_Close_of. unfold_M.
    unfold call_columnAttrStore. simpl.
    destruct (AttrStore_Close _ _) as [[err st] d1]. simpl.
    destruct (Close_loop a _) as [[e|[]] s1] eqn:Hloop; simpl.
    + intros [= <- <-].
      apply Close_loop_spec in Hloop as (_ & _ & Hk).
      * apply Hk; [done| |done]. intros k f Hkf. rewrite Ha in Hkf.
        apply elem_of_map_to_list in Hkf. by apply Hkeys.
      * simpl. intros k f Hkf. rewrite Ha in Hkf.
        apply elem_of_map_to_list in Hkf. apply elem_of_dom. eauto.
    + intros [= <- <-]. simpl. intros k f. by rewrite lookup_empty.
Qed.


End more_index_properties.

(** ** The tables of the methods *)

Lemma method_tables_range (M : apiMethod) :
  M ∈ methodsCommon ∪ methodsNormal ∪ methodsResizing ↔ (0 ≤ M ≤ 22)%Z.
Proof.
  unfold methodsCommon, methodsNormal, methodsResizing.
  unfold apiClusterMessage, apiCreateField, apiCreateIndex, apiDeleteField,
    apiDeleteIndex, apiDeleteView, apiExportCSV, apiFragmentBlockData,
    apiFragmentBlocks, apiFieldAttrDiff, apiImport, apiImportValue,
    apiIndex, apiIndexAttrDiff, apiMarshalFragment, apiQuery,
    apiRecalculateCaches, apiRemoveNode, apiResizeAbort, apiSetCoordinator,
    apiSliceNodes, apiUnmarshalFragment, apiViews.
  rewrite !elem_of_union, !elem_of_singleton. lia.
Qed.

(** X12: the three tables are disjoint and hold between them exactly the
    method numbers 0 to 22; so every declared method passes [validate] in
    [NORMAL] or in [RESIZING], no method of the normal table passes in
    another state, and a number that is no declared method passes in no
    state at all. *)
Theorem method_tables_partition :
  (∀ M : apiMethod,
     M ∈ methodsCommon ∪ methodsNormal ∪ methodsResizing ↔ (0 ≤ M ≤ 22)%Z) ∧
  methodsCommon ∩ methodsNormal = ∅ ∧
  methodsCommon ∩ methodsResizing = ∅ ∧
  methodsNormal ∩ methodsResizing = ∅ ∧
  (∀ M : apiMethod,
     (0 ≤ M ≤ 22)%Z →
     validate_in ClusterStateNormal M = None ∨
     validate_in ClusterStateResizing M = None) ∧
  (∀ (state : string) (M : apiMethod),
     M ∈ methodsNormal → state ≠ ClusterStateNormal →
     validate_in state M ≠ None) ∧
  (∀ (state : string) (M : apiMethod),
     ¬ (0 ≤ M ≤ 22)%Z → validate_in state M ≠ None).
Proof.
  destruct method_tables_disjoint as (Hcn & Hcr & Hnr).
  split_and!; [apply method_tables_range|done..| | |].
  - intros M HM%method_tables_range. rewrite !validate_in_None.
    rewrite validAPIMethods_normal, validAPIMethods_resizing. simpl.
    set_solver.
  - apply normal_method_elsewhere.
  - intros state M HM Hok%validate_in_None.
    destruct (valid_methods_within_tables state) as [Hsub _].
    apply HM, method_tables_range. by apply Hsub.
Qed.

(** ** Calls that [validate] rejects, and calls that do not broadcast *)

Section more_api_properties.
Context `{Externals} `{MoreExternals}.

Lemma rejected_run {A} (m : apiMethod) (k : M World A) (w : World) :
  m ∈ methodsNormal → c_State (w_cluster w) ≠ ClusterStateNormal →
  (wrap "validating api method" (API_validate m);; k) w =
  rejected_by_validate m w.
Proof.
  intros Hm Hstate. erewrite bind_err; [done|].
  apply wrap_err, validate_rejected. by apply validate_in_rejects_normal.
Qed.

(** Closes a goal that a declared method is in the normal table. *)
Ltac in_normal_table := unfold methodsNormal; set_solver.

(** X13: in a state other than [NORMAL], whatever string it is, the
    methods of the normal table are stopped by [validate]: each returns
    the method-not-allowed error wrapped with "validating api method", and
    the world is as it was: nothing is looked up, stored, logged or
    broadcast. *)
Theorem refused_call_changes_nothing (api : API) (w : World) :
  c_State (w_cluster w) ≠ ClusterStateNormal →
  (∀ name opts,
     API_CreateIndex api name opts w = rejected_by_validate apiCreateIndex w) ∧
  (∀ name, API_DeleteIndex api name w = rejected_by_validate apiDeleteIndex w) ∧
  (∀ index name opts,
     API_CreateField api index name opts w =
     rejected_by_validate apiCreateField w) ∧
  (∀ index name,
     API_DeleteField api index name w =
     rejected_by_validate apiDeleteField w) ∧
  (∀ index field view,
     API_DeleteView api index field view w =
     rejected_by_validate apiDeleteView w) ∧
  API_RecalculateCaches api w = rejected_by_validate apiRecalculateCaches w ∧
  (∀ index field slice,
     API_ExportCSV api index field slice w =
     rejected_by_validate apiExportCSV w) ∧
  (∀ req, API_Import api req w = rejected_by_validate apiImport w) ∧
  (∀ req, API_ImportValue api req w = rejected_by_validate apiImportValue w) ∧
  (∀ index blocks,
     API_IndexAttrDiff api index blocks w =
     rejected_by_validate apiIndexAttrDiff w) ∧
  (∀ index field blocks,
     API_FieldAttrDiff api index field blocks w =
     rejected_by_validate apiFieldAttrDiff w) ∧
  (∀ index, API_Index api index w = rejected_by_validate apiIndex w) ∧
  (∀ ts req,
     API_Query api ts req w =
     ({| qresp_Results := []; qresp_ColumnAttrSets := [] |},
      Some (withMessage
              (ApiMethodNotAllowedError
                 (errors_Errorf "api method %s not allowed in state %s"
                    [AMethod apiQuery; AString (c_State (w_cluster w))]))
              "validating api method"), w)).
Proof.
  intros Hstate.
  split_and!; intros; try (apply rejected_run; [in_normal_table|done]).
  unfold API_Query.
  assert (apiQuery ∈ methodsNormal) as Hq by in_normal_table.
  rewrite (validate_rejected apiQuery w _
             (validate_in_rejects_normal _ apiQuery Hq Hstate)).
  done.
Qed.

(** ** Calls that do not broadcast *)
















(** ** Lookups that fail, once [validate] has let the method pass *)

Lemma allowed_run {A} (m : apiMethod) (k : M World A) (w : World) :
  m ∈ methodsNormal → c_State (w_cluster w) = ClusterStateNormal →
  (wrap "validating api method" (API_validate m);; k) w = k w.
Proof.
  intros Hm Hstate. erewrite bind_ok; [done|].
  by apply wrap_ok, validate_normal.
Qed.

Lemma gets_run {A B} (f : World → A) (k : A → M World B) (w : World) :
  (gets f ≫= k) w = k (f w) w.
Proof. done. Qed.

Lemma Holder_Field_None (st : Storage) (index field : string) :
  Holder_Field st index field = None ↔
  Holder_Index st index = None ∨
  ∃ i, Holder_Index st index = Some i ∧ Index_Field i field = None.
Proof.
  unfold Holder_Field. destruct (Holder_Index st index) as [i|]; simpl.
  - destruct (Index_Field i field) as [f|] eqn:Hf; simpl.
    + split; [done|]. intros [?|(i' & [= <-] & ?)]; congruence.
    + split; [|done]. intros _. right. eauto.
  - split; [|done]. by left.
Qed.

(** X15: in the [NORMAL] state, a call that names an index that the holder
    does not have returns [ErrIndexNotFound] ([Index], [CreateField],
    [DeleteField], [IndexAttrDiff]), one that names a field that is not
    there returns [ErrFieldNotFound] ([DeleteView], [FieldAttrDiff]), also
    when it is the index that is missing; none of them is wrapped, and the
    world is left as it was: nothing is created, logged or broadcast. *)
Theorem unknown_index_or_field_changes_nothing (api : API) (w : World)
    (index field : string) :
  c_State (w_cluster w) = ClusterStateNormal →
  (Holder_Index (w_store w) index = None →
   API_Index api index w = (inl (Sentinel ErrIndexNotFound), w) ∧
   (∀ opts, API_CreateField api index field opts w =
            (inl (Sentinel ErrIndexNotFound), w)) ∧
   API_DeleteField api index field w =
     (inl (Sentinel ErrIndexNotFound), w) ∧
   (∀ blocks, API_IndexAttrDiff api index blocks w =
              (inl (Sentinel ErrIndexNotFound), w))) ∧
  (Holder_Field (w_store w) index field = None →
   (∀ view, API_DeleteView api index field view w =
            (inl (Sentinel ErrFieldNotFound), w)) ∧
   (∀ blocks, API_FieldAttrDiff api index field blocks w =
              (inl (Sentinel ErrFieldNotFound), w))).
Proof.
  intros Hstate. split.
  - intros Hi. split_and!; intros.
    + unfold API_Index. rewrite allowed_run; [|in_normal_table|done].
      by rewrite gets_run, Hi.
    + unfold API_CreateField. rewrite allowed_run; [|in_normal_table|done].
      by rewrite gets_run, Hi.
    + unfold API_DeleteField. rewrite allowed_run; [|in_normal_table|done].
      by rewrite gets_run, Hi.
    + unfold API_IndexAttrDiff.
      rewrite allowed_run; [|in_normal_table|done].
      by rewrite gets_run, Hi.
  - intros Hf. split; intros.
    + unfold API_DeleteView. rewrite allowed_run; [|in_normal_table|done].
      by rewrite gets_run, Hf.
    + unfold API_FieldAttrDiff.
      rewrite allowed_run; [|in_normal_table|done].
      by rewrite gets_run, Hf.
Qed.

Lemma indexField_missing (index field : string) (slice : Z) (w : World) :
  Cluster_ownsSlice (w_cluster w) (API_LocalID w) index slice = true →
  Holder_Field (w_store w) index field = None →
  let missing :=
    match Holder_Index (w_store w) index with
    | Some _ =>
        (ErrFieldNotFound,
         "field error: index=%s, field=%s, slice=%d, err=%s")
    | None =>
        (ErrIndexNotFound,
         "fragment error: index=%s, field=%s, slice=%d, err=%s")
    end in
  API_indexField index field slice w =
    (inl (Sentinel missing.1),
     add_log missing.2
       [AString index; AString field; AUint slice;
        AError (Sentinel missing.1)]
       (add_log "importing: %v %v %v"
          [AString index; AString field; AUint slice] w)).
Proof.
  intros Hown Hf. unfold API_indexField, logger_Printf. unfold_M. simpl.
  rewrite Hown. simpl.
  apply Holder_Field_None in Hf as [Hi|(i & Hi & Hf)]; rewrite Hi; [done|].
  by rewrite Hf.
Qed.

(** X16: in the [NORMAL] state, for a slice that the local node owns,
    [Import] and [ImportValue] of a field that the holder does not have
    fail with [ErrIndexNotFound] when the index is missing and with
    [ErrFieldNotFound] when only the field is, wrapped with
    "getting field". Two lines are logged, the second with the error;
    the storage is left as it was and nothing is broadcast. *)
Theorem import_into_unknown_field (api : API) (w : World)
    (index field : string) (slice : Z) :
  c_State (w_cluster w) = ClusterStateNormal →
  Cluster_ownsSlice (w_cluster w) (API_LocalID w) index slice = true →
  Holder_Field (w_store w) index field = None →
  let missing :=
    match Holder_Index (w_store w) index with
    | Some _ =>
        (ErrFieldNotFound,
         "field error: index=%s, field=%s, slice=%d, err=%s")
    | None =>
        (ErrIndexNotFound,
         "fragment error: index=%s, field=%s, slice=%d, err=%s")
    end in
  let w' :=
    add_log missing.2
      [AString index; AString field; AUint slice;
       AError (Sentinel missing.1)]
      (add_log "importing: %v %v %v"
         [AString index; AString field; AUint slice] w) in
  let wrapped := withMessage (Sentinel missing.1) "getting field" in
  (∀ rows cols tss,
     API_Import api
       {| ir_Index := index; ir_Field := field; ir_Slice := slice;
          ir_RowIDs := rows; ir_ColumnIDs := cols; ir_Timestamps := tss |}
       w = (inl wrapped, w')) ∧
  (∀ cols vals,
     API_ImportValue api
       {| ivr_Index := index; ivr_Field := field; ivr_Slice := slice;
          ivr_ColumnIDs := cols; ivr_Values := vals |}
       w = (inl wrapped, w')) ∧
  errors_Cause wrapped = Sentinel missing.1 ∧
  w_store w' = w_store w ∧ w_sent w' = w_sent w.
Proof.
  intros Hstate Hown Hf missing w' wrapped. split_and!; try done.
  - intros rows cols tss. unfold API_Import.
    rewrite allowed_run; [|in_normal_table|done].
    erewrite bind_err; [done|].
    apply wrap_err. simpl. by apply indexField_missing.
  - intros cols vals. unfold API_ImportValue.
    rewrite allowed_run; [|in_normal_table|done].
    erewrite bind_err; [done|].
    apply wrap_err. simpl. by apply indexField_missing.
Qed.

(** ** [DeleteView] *)

Lemma is_ErrInvalidView_false (e : error) :
  e ≠ Sentinel ErrInvalidView → is_ErrInvalidView e = false.
Proof. intros He. destruct e as [s| | | | | | |]; try done. by destruct s. Qed.

(** X17: in the [NORMAL] state, when the field refuses to delete the view
    with an error other than [ErrInvalidView], [DeleteView] returns that
    error wrapped with "deleting view" and hands nothing to the
    broadcaster. When the field deletes the view, or answers
    [ErrInvalidView], and the broadcast succeeds, [DeleteView] returns
    nil, and the message was handed over after the field was changed. *)
Theorem DeleteView_broadcasts_unless_field_fails (api : API) (w : World)
    (index field view : string) (i : Index) (f f' : Field)
    (err : option error) (d' : FS) :
  c_State (w_cluster w) = ClusterStateNormal →
  Holder_Field (w_store w) index field = Some (i, f) →
  Field_DeleteView view f (st_disk (w_store w)) = (err, f', d') →
  let local := store_field index i field f' d' (w_store w) in
  (∀ e, err = Some e → e ≠ Sentinel ErrInvalidView →
        API_DeleteView api index field view w =
          (inl (withMessage e "deleting view"),
           set_store (λ _, local) w)) ∧
  (err = None ∨ err = Some (Sentinel ErrInvalidView) →
   SendSync (api_Broadcaster api) (DeleteViewMessage index field view)
     = None →
   API_DeleteView api index field view w =
     (inr (), add_sent (DeleteViewMessage index field view)
                (set_store (λ _, local) w))).
Proof.
  intros Hstate Hf Hlocal local. split.
  - intros e -> He. unfold API_DeleteView.
    rewrite allowed_run; [|in_normal_table|done].
    rewrite gets_run, Hf.
    erewrite bind_ok; [|by apply on_field_run].
    erewrite bind_err; [done|].
    by rewrite (is_ErrInvalidView_false e He).
  - intros Herr Hup. unfold API_DeleteView.
    rewrite allowed_run; [|in_normal_table|done].
    rewrite gets_run, Hf.
    erewrite bind_ok; [|by apply on_field_run].
    unfold Broadcaster_SendSync, logger_Printf. unfold_M.
    destruct Herr as [-> | ->]; simpl; by rewrite Hup.
Qed.
(** ** [MarshalFragment] *)

(** X18: [MarshalFragment] is in the common table: in each of the three
    cluster states it is only the lookup of the fragment of the standard
    view, which fails with [ErrFragmentNotFound]; the world is left as it
    was. *)
Theorem MarshalFragment_in_every_state (api : API) (w : World)
    (index field : string) (slice : Z) :
  is_cluster_state (c_State (w_cluster w)) →
  API_MarshalFragment api index field slice w =
    (match Holder_Fragment (w_store w) index field ViewStandard slice with
     | Some f => inr f
     | None => inl (Sentinel ErrFragmentNotFound)
     end, w).
Proof.
  intros Hstate. unfold API_MarshalFragment.
  erewrite bind_ok.
  2:{ apply wrap_ok, API_validate_ok.
      rewrite (allowed_set_of_state _ Hstate).
      unfold methodsCommon. set_solver. }
  rewrite gets_run. by destruct (Holder_Fragment _ _ _ _ _).
Qed.

(** ** The attribute differences that fail *)

Lemma read_blocks_fails (store : AttrStore) (pre post : list Z) (b : Z)
    (e : error) :
  ∀ acc : gmap Z (gmap string AttrValue),
  (∀ x, x ∈ pre → ∃ m, as_BlockData store x = inr m) →
  as_BlockData store b = inl e →
  read_blocks store (pre ++ b :: post) acc =
    inl (withMessage e "getting block").
Proof.
  induction pre as [|x pre IH]; intros acc Hpre Hb; simpl.
  - by rewrite Hb.
  - destruct (Hpre x) as [m Hm]; [set_solver|]. rewrite Hm.
    apply IH; [|done]. intros y Hy. apply Hpre. set_solver.
Qed.

Lemma attr_diff_fails (store : AttrStore) (remote : list AttrBlock)
    (w : World) :
  (∀ e, as_Blocks store = inl e →
        attr_diff store remote w =
          (inl (withMessage e "getting blocks"), w)) ∧
  (∀ localBlocks pre b post e,
     as_Blocks store = inr localBlocks →
     AttrBlocks_Diff localBlocks remote = pre ++ b :: post →
     (∀ x, x ∈ pre → ∃ m, as_BlockData store x = inr m) →
     as_BlockData store b = inl e →
     attr_diff store remote w = (inl (withMessage e "getting block"), w)).
Proof.
  split.
  - intros e He. unfold attr_diff. erewrite bind_err; [done|].
    apply wrap_err. by rewrite He.
  - intros localBlocks pre b post e Hl Hdiff Hpre Hb. unfold attr_diff.
    erewrite bind_ok; [|apply wrap_ok; by rewrite Hl].
    by rewrite Hdiff, (read_blocks_fails store pre post b e ∅ Hpre Hb).
Qed.

(** X19: in the [NORMAL] state, [IndexAttrDiff] of an index and
    [FieldAttrDiff] of a field whose attribute store cannot list its
    blocks return that error wrapped with "getting blocks"; when the store
    lists them but cannot read one of the blocks that differ, they return
    the error of the first such block wrapped with "getting block", and
    nothing of what the blocks before it held. The world is left as it
    was. *)
Theorem AttrDiff_store_failures (api : API) (w : World)
    (store : AttrStore) (remote : list AttrBlock) (wrapped : error) :
  c_State (w_cluster w) = ClusterStateNormal →
  (∃ e, as_Blocks store = inl e ∧
        wrapped = withMessage e "getting blocks") ∨
  (∃ localBlocks pre b post e,
     as_Blocks store = inr localBlocks ∧
     AttrBlocks_Diff localBlocks remote = pre ++ b :: post ∧
     (∀ x, x ∈ pre → ∃ m, as_BlockData store x = inr m) ∧
     as_BlockData store b = inl e ∧
     wrapped = withMessage e "getting block") →
  (∀ index i,
     Holder_Index (w_store w) index = Some i →
     Index_ColumnAttrStore i = store →
     API_IndexAttrDiff api index remote w = (inl wrapped, w)) ∧
  (∀ index field i f,
     Holder_Field (w_store w) index field = Some (i, f) →
     Field_RowAttrStore f = store →
     API_FieldAttrDiff api index field remote w = (inl wrapped, w)).
Proof.
  intros Hstate Hfail.
  assert (attr_diff store remote w = (inl wrapped, w)) as Hdiff.
  { destruct Hfail as [(e & He & ->)|
                       (localBlocks & pre & b & post & e & Hl & Hd & Hpre &
                        Hb & ->)].
    - by apply attr_diff_fails.
    - by eapply attr_diff_fails. }
  split.
  - intros index i Hi <-. unfold API_IndexAttrDiff.
    rewrite allowed_run; [|in_normal_table|done].
    by rewrite gets_run, Hi.
  - intros index field i f Hf <-. unfold API_FieldAttrDiff.
    rewrite allowed_run; [|in_normal_table|done].
    by rewrite gets_run, Hf.
Qed.

(** ** [readColumnAttrSets] and [Query] *)

Lemma readColumnAttrSets_loop_spec (store : AttrStore)
    (attrsOf : Z → gmap string AttrValue) (ids : list Z) :
  ∀ ax,
  (∀ id, id ∈ ids → AttrStore_Attrs store id = inr (attrsOf id)) →
  readColumnAttrSets_loop store ids ax =
    inr (ax ++ ((λ id, {| cas_ID := id; cas_Key := "";
                          cas_Attrs := attrsOf id |})
                <$> filter (λ id, size (attrsOf id) ≠ 0%nat) ids)).
Proof.
  induction ids as [|id ids IH]; intros ax Hids; simpl.
  - by rewrite app_nil_r.
  - rewrite (Hids id) by set_solver.
    rewrite filter_cons. case_bool_decide as Hsize.
    + rewrite decide_False by (by intros ?).
      apply IH. intros ??. apply Hids. set_solver.
    + rewrite decide_True by done.
      rewrite IH by (intros ??; apply Hids; set_solver).
      by rewrite <-app_assoc.
Qed.

Lemma readColumnAttrSets_loop_fails (store : AttrStore)
    (pre post : list Z) (id : Z) (e : error) :
  ∀ ax,
  (∀ x, x ∈ pre → ∃ attrs, AttrStore_Attrs store x = inr attrs) →
  AttrStore_Attrs store id = inl e →
  readColumnAttrSets_loop store (pre ++ id :: post) ax =
    inl (withMessage e "getting attrs").
Proof.
  induction pre as [|x pre IH]; intros ax Hpre Hid; simpl.
  - by rewrite Hid.
  - destruct (Hpre x) as [attrs Hx]; [set_solver|]. rewrite Hx.
    case_bool_decide; apply IH; try done; intros ??; apply Hpre; set_solver.
Qed.

(** X20: when the column attribute store of the index answers for every
    id, [readColumnAttrSets] returns one set for each id that has
    attributes, in the order of the ids, with the id, an empty key and the
    attributes of the id; an id without attributes is left out. When the
    store fails for an id, the error is returned wrapped with
    "getting attrs", and no set at all. *)
Theorem readColumnAttrSets_keeps_ids_with_attributes (index : Index)
    (ids : list Z) :
  (∀ attrsOf,
     (∀ id, id ∈ ids →
            AttrStore_Attrs (Index_ColumnAttrStore index) id =
              inr (attrsOf id)) →
     API_readColumnAttrSets (Some index) ids =
       inr ((λ id, {| cas_ID := id; cas_Key := "";
                      cas_Attrs := attrsOf id |})
            <$> filter (λ id, size (attrsOf id) ≠ 0%nat) ids)) ∧
  (∀ pre id post e,
     ids = pre ++ id :: post →
     (∀ x, x ∈ pre →
           ∃ attrs, AttrStore_Attrs (Index_ColumnAttrStore index) x =
                      inr attrs) →
     AttrStore_Attrs (Index_ColumnAttrStore index) id = inl e →
     API_readColumnAttrSets (Some index) ids =
       inl (withMessage e "getting attrs")).
Proof.
  split.
  - intros attrsOf Hids. unfold API_readColumnAttrSets.
    by rewrite (readColumnAttrSets_loop_spec _ attrsOf).
  - intros pre id post e -> Hpre Hid. unfold API_readColumnAttrSets.
    by apply readColumnAttrSets_loop_fails.
Qed.

(** X21: the translate store of the API has no influence on what [Query]
    returns: the loop that translates the ids of the column attribute
    sets to keys ranges over the sets of the response before they are
    assigned to it, so it runs over none. *)
Theorem Query_ignores_translate_store (api : API)
    (translateStore : option TranslateStore) (req : QueryRequest)
    (w : World) :
  API_Query api translateStore req w = API_Query api None req w.
Proof.
  unfold API_Query.
  destruct (API_validate apiQuery w) as [[e|[]] w1]; [done|].
  destruct (pql_Parse _) as [e|q]; [done|].
  destruct (Executor_Execute _ _ _ _ _) as [[e|results] st]; [done|].
  destruct (_ && _); [|done].
  destruct (API_readColumnAttrSets _ _) as [e|sets]; [done|].
  by destruct translateStore.
Qed.


(** ** The local change, the broadcast and the count *)

(** X23: in the [NORMAL] state, when the local step fails, [CreateIndex],
    [DeleteIndex], [CreateField] and [DeleteField] return its error
    wrapped with what they were doing; nothing is handed to the
    broadcaster and nothing is counted. *)
Theorem local_failure_is_not_broadcast (api : API) (w : World) (e : error) :
  c_State (w_cluster w) = ClusterStateNormal →
  (∀ name opts st',
     Holder_CreateIndex name opts (w_store w) = (inl e, st') →
     API_CreateIndex api name opts w =
       (inl (withMessage e "creating index"), set_store (λ _, st') w)) ∧
  (∀ name st',
     Holder_DeleteIndex name (w_store w) = (Some e, st') →
     API_DeleteIndex api name w =
       (inl (withMessage e "deleting index"), set_store (λ _, st') w)) ∧
  (∀ index name opts i s',
     Holder_Index (w_store w) index = Some i →
     Index_CreateField name opts
       {| this := i; disk := st_disk (w_store w) |} = (inl e, s') →
     API_CreateField api index name opts w =
       (inl (withMessage e "creating field"),
        set_store (store_index index s') w)) ∧
  (∀ index name i s',
     Holder_Index (w_store w) index = Some i →
     Index_DeleteField name
       {| this := i; disk := st_disk (w_store w) |} = (inl e, s') →
     API_DeleteField api index name w =
       (inl (withMessage e "deleting field"),
        set_store (store_index index s') w)).
Proof.
  intros Hstate. split_and!.
  - intros name opts st' Hlocal. unfold API_CreateIndex.
    rewrite allowed_run; [|in_normal_table|done].
    erewrite bind_err; [done|]. by apply wrap_err, on_store_run.
  - intros name st' Hlocal. unfold API_DeleteIndex.
    rewrite allowed_run; [|in_normal_table|done].
    erewrite bind_err; [done|].
    apply wrap_err, on_store_run. by rewrite Hlocal.
  - intros index name opts i s' Hi Hlocal. unfold API_CreateField.
    rewrite allowed_run; [|in_normal_table|done].
    rewrite gets_run, Hi.
    erewrite bind_err; [done|]. by apply wrap_err, on_index_run.
  - intros index name i s' Hi Hlocal. unfold API_DeleteField.
    rewrite allowed_run; [|in_normal_table|done].
    rewrite gets_run, Hi.
    erewrite bind_err; [done|]. by apply wrap_err, on_index_run.
Qed.

(** X24: in the [NORMAL] state, when the local step and the broadcast
    succeed, [CreateIndex], [DeleteIndex], [CreateField] and [DeleteField]
    return what the local step made; the message was handed to the
    broadcaster once, after the local change, and the call is counted
    once afterwards, for a field with the tag of the index. Nothing is
    logged. *)
Theorem local_change_is_broadcast_then_counted (api : API) (w : World) :
  c_State (w_cluster w) = ClusterStateNormal →
  (∀ m, SendSync (api_Broadcaster api) m = None) →
  (∀ name opts idx st',
     Holder_CreateIndex name opts (w_store w) = (inr idx, st') →
     API_CreateIndex api name opts w =
       (inr idx,
        add_stat "createIndex" []
          (add_sent (CreateIndexMessage name opts)
             (set_store (λ _, st') w)))) ∧
  (∀ name st',
     Holder_DeleteIndex name (w_store w) = (None, st') →
     API_DeleteIndex api name w =
       (inr (),
        add_stat "deleteIndex" []
          (add_sent (DeleteIndexMessage name) (set_store (λ _, st') w)))) ∧
  (∀ index name opts i f s',
     Holder_Index (w_store w) index = Some i →
     Index_CreateField name opts
       {| this := i; disk := st_disk (w_store w) |} = (inr f, s') →
     API_CreateField api index name opts w =
       (inr f,
        add_stat "createField" ["index:" +:+ index]
          (add_sent (CreateFieldMessage index name opts)
             (set_store (store_index index s') w)))) ∧
  (∀ index name i s',
     Holder_Index (w_store w) index = Some i →
     Index_DeleteField name
       {| this := i; disk := st_disk (w_store w) |} = (inr (), s') →
     API_DeleteField api index name w =
       (inr (),
        add_stat "deleteField" ["index:" +:+ index]
          (add_sent (DeleteFieldMessage index name)
             (set_store (store_index index s') w)))).
Proof.
  intros Hstate Hup. split_and!.
  - intros name opts idx st' Hlocal. unfold API_CreateIndex.
    rewrite allowed_run; [|in_normal_table|done].
    erewrite bind_ok; [|by apply wrap_ok, on_store_run].
    unfold Broadcaster_SendSync, Stats_Count. unfold_M. simpl.
    by rewrite Hup.
  - intros name st' Hlocal. unfold API_DeleteIndex.
    rewrite allowed_run; [|in_normal_table|done].
    erewrite bind_ok; [|apply wrap_ok, on_store_run; by rewrite Hlocal].
    unfold Broadcaster_SendSync, Stats_Count. unfold_M. simpl.
    by rewrite Hup.
  - intros index name opts i f s' Hi Hlocal. unfold API_CreateField.
    rewrite allowed_run; [|in_normal_table|done].
    rewrite gets_run, Hi.
    erewrite bind_ok; [|by apply wrap_ok, on_index_run].
    unfold Broadcaster_SendSync, Stats_Count. unfold_M. simpl.
    by rewrite Hup.
  - intros index name i s' Hi Hlocal. unfold API_DeleteField.
    rewrite allowed_run; [|in_normal_table|done].
    rewrite gets_run, Hi.
    erewrite bind_ok; [|by apply wrap_ok, on_index_run].
    unfold Broadcaster_SendSync, Stats_Count. unfold_M. simpl.
    by rewrite Hup.
Qed.
End more_api_properties.

(** ** [ExportCSV] *)













Section export_properties.
Context `{Externals}.


(** X26: under the same conditions, when the holder has no such fragment,
    [ExportCSV] fails with [ErrFragmentNotFound]; nothing is written or
    logged. *)
Theorem ExportCSV_without_fragment (api : API) (w : World)
    (index field : string) (slice : Z) :
  c_State (w_cluster w) = ClusterStateNormal →
  Cluster_ownsSlice (w_cluster w) (API_LocalID w) index slice = true →
  Holder_Fragment (w_store w) index field ViewStandard slice = None →
  API_ExportCSV api index field slice w =
    (inl (Sentinel ErrFragmentNotFound), w).
Proof.
  intros Hstate Hown Hf. unfold API_ExportCSV.
  erewrite bind_ok.
  2:{ apply wrap_ok, validate_normal; [done|].
      unfold methodsNormal. set_solver. }
  unfold_M. simpl. rewrite Hown. simpl. by rewrite Hf.
Qed.
End export_properties.

(** ** The sample node, again *)

Lemma depot_order : range_order (i_fields Sample2.depot) [Sample2.stock].
Proof.
  unfold range_order.
  replace (map_to_list (i_fields Sample2.depot)).*2
    with [Sample2.stock] by (vm_compute; reflexivity).
  reflexivity.
Defined.

Lemma depot_fields (k : string) (f : Field) :
  i_fields Sample2.depot !! k = Some f → k = "stock" ∧ f = Sample2.stock.
Proof.
  intros Hf. change (i_fields Sample2.depot)
    with ({["stock" := Sample2.stock]} : gmap string Field) in Hf.
  apply lookup_singleton_Some in Hf as [<- <-]. done.
Defined.

Lemma MaxSlice_least_upper_bound_witness :
  Index_MaxSlice_of [Sample2.stock] (Some Sample2.depot) = 5%Z ∧
  Index_MaxSlice (Some Sample2.depot) = 5%Z.
Proof.
  destruct (MaxSlice_least_upper_bound Sample2.depot [Sample2.stock]
              depot_order)
    as (_ & _ & _ & Hsame & _).
  split; [reflexivity|]. rewrite <-Hsame. reflexivity.
Defined.

Lemma SetRemoteMaxSlice_overwrites_witness :
  ∃ s', Index_SetRemoteMaxSlice 9 Sample2.depotState = (inr (), s') ∧
        Index_MaxSlice_of [Sample2.stock] (Some (this s')) = 9%Z.
Proof.
  destruct (SetRemoteMaxSlice_overwrites 9 Sample2.depotState
              [Sample2.stock] depot_order)
    as (s' & Hrun & _ & _ & Hmax).
  { intros k f Hf. apply depot_fields in Hf as [_ ->]. vm_compute.
    discriminate. }
  exists s'. split; [exact Hrun|exact Hmax].
Defined.

Lemma CreateField_registers_only_on_success_witness :
  ∃ f s',
    Index_CreateField "price" Sample.lruOptions Sample2.shopState =
      (inr f, s') ∧
    i_fields (this s') !! "price" = Some f ∧
    i_fields (this s') !! "color" = Some Sample.color.
Proof.
  assert (∃ f s', Index_CreateField "price" Sample.lruOptions
                    Sample2.shopState = (inr f, s')) as (f & s' & Hrun).
  { eexists _, _. reflexivity. }
  exists f, s'. split; [exact Hrun|].
  destruct (CreateField_registers_only_on_success "price" Sample.lruOptions
              Sample2.shopState s' (inr f) Hrun)
    as (_ & _ & Hnew & Hold).
  split; [exact Hnew|]. rewrite Hold; [reflexivity|discriminate].
Defined.

Lemma CreateFieldIfNotExists_idempotent_witness :
  ∃ f s',
    Index_CreateFieldIfNotExists "price" Sample.lruOptions
      Sample2.shopState = (inr f, s') ∧
    Index_CreateFieldIfNotExists "price" Sample.rankedOptions s' =
      (inr f, s') ∧
    Index_CreateField "price" Sample.rankedOptions s' =
      (inl (Sentinel ErrFieldExists), s').
Proof.
  assert (∃ f s', Index_CreateFieldIfNotExists "price" Sample.lruOptions
                    Sample2.shopState = (inr f, s')) as (f & s' & Hrun).
  { eexists _, _. reflexivity. }
  exists f, s'. split; [exact Hrun|].
  exact (CreateFieldIfNotExists_idempotent "price" Sample.lruOptions
           Sample.rankedOptions Sample2.shopState s' f Hrun).
Defined.

Lemma CreateField_then_DeleteField_witness :
  ∃ f s1 s2,
    Index_CreateField "price" Sample.lruOptions Sample2.shopState =
      (inr f, s1) ∧
    Index_DeleteField "price" s1 = (inr (), s2) ∧
    this s2 = Sample.shop ∧ ("data/shop/price" ∉ disk s2).
Proof.
  edestruct (CreateField_then_DeleteField "price" Sample.lruOptions
               Sample2.shopState) as (s2 & Hdel & Hthis & Hdisk);
    [reflexivity..|].
  eexists _, _, s2.
  split_and!; [reflexivity|exact Hdel|exact Hthis|exact Hdisk].
Defined.


Lemma keeps_name_Open : keeps_name (@Field_Open Sample.externals).
Proof. intros f d. reflexivity. Defined.

Lemma keeps_name_Close : keeps_name (@Field_Close Sample.externals).
Proof. intros f d. reflexivity. Defined.



Lemma shop_names_are_keys : names_are_keys (i_fields Sample.shop).
Proof.
  intros k f Hf.
  change (i_fields Sample.shop)
    with (<["size" := Sample.size]>
            ({["color" := Sample.color]} : gmap string Field)) in Hf.
  apply lookup_insert_Some in Hf as [[<- <-]|[_ Hf]]; [reflexivity|].
  apply lookup_singleton_Some in Hf as [<- <-]. reflexivity.
Defined.

Lemma registry_keeps_names_as_keys_witness :
  names_are_keys
    (i_fields
       (this (Index_CreateFieldIfNotExists "price" Sample.lruOptions
                Sample2.shopState).2)).
Proof.
  destruct (registry_keeps_names_as_keys Sample2.shopState)
    as (_ & Hcreate & _).
  - exact keeps_name_Open.
  - intros opt f d. reflexivity.
  - intros f d. reflexivity.
  - exact keeps_name_Close.
  - exact shop_names_are_keys.
  - apply (Hcreate "price" Sample.lruOptions
             (Index_CreateFieldIfNotExists "price" Sample.lruOptions
                Sample2.shopState).1).
    apply surjective_pairing.
Defined.




Lemma refused_call_changes_nothing_witness :
  API_CreateIndex Sample.upAPI "users" mkIndexOptions
    (Sample.world "RESIZING") =
    rejected_by_validate apiCreateIndex (Sample.world "RESIZING") ∧
  API_DeleteField Sample.upAPI "shop" "color" (Sample.world "STARTING") =
    rejected_by_validate apiDeleteField (Sample.world "STARTING").
Proof.
  split.
  - destruct (refused_call_changes_nothing Sample.upAPI
                (Sample.world "RESIZING")) as (Hcreate & _);
      [discriminate|]. apply Hcreate.
  - destruct (refused_call_changes_nothing Sample.upAPI
                (Sample.world "STARTING")) as (_ & _ & _ & Hdelete & _);
      [discriminate|]. apply Hdelete.
Defined.

Lemma unknown_index_or_field_changes_nothing_witness :
  API_Index Sample.upAPI "users" (Sample.world "NORMAL") =
    (inl (Sentinel ErrIndexNotFound), Sample.world "NORMAL") ∧
  API_DeleteView Sample.upAPI "shop" "price" ViewStandard
    (Sample.world "NORMAL") =
    (inl (Sentinel ErrFieldNotFound), Sample.world "NORMAL").
Proof.
  split.
  - destruct (unknown_index_or_field_changes_nothing Sample.upAPI
                (Sample.world "NORMAL") "users" "color") as (Hindex & _);
      [reflexivity|].
    destruct Hindex as (Hrun & _); [reflexivity|]. exact Hrun.
  - destruct (unknown_index_or_field_changes_nothing Sample.upAPI
                (Sample.world "NORMAL") "shop" "price") as (_ & Hfield);
      [reflexivity|].
    destruct Hfield as (Hrun & _); [reflexivity|]. apply Hrun.
Defined.

Lemma import_into_unknown_field_witness :
  ∃ w',
    API_Import Sample.upAPI
      {| ir_Index := "shop"; ir_Field := "price"; ir_Slice := 0%Z;
         ir_RowIDs := [1]%Z; ir_ColumnIDs := [5]%Z;
         ir_Timestamps := [0]%Z |}
      (Sample.world "NORMAL") =
      (inl (withMessage (Sentinel ErrFieldNotFound) "getting field"), w') ∧
    w_store w' = Sample.store0 ∧ w_sent w' = [].
Proof.
  destruct (import_into_unknown_field Sample.upAPI (Sample.world "NORMAL")
              "shop" "price" 0) as (Himport & _ & _ & Hstore & Hsent);
    [reflexivity..|].
  eexists. split_and!; [apply Himport|exact Hstore|exact Hsent].
Defined.

Lemma DeleteView_broadcasts_unless_field_fails_witness :
  ∃ w',
    API_DeleteView Sample.upAPI "shop" "color" ViewStandard
      (Sample.world "NORMAL") = (inr (), w') ∧
    w_sent w' =
      [(DeleteViewMessage "shop" "color" ViewStandard, w_store w')].
Proof.
  edestruct (DeleteView_broadcasts_unless_field_fails Sample.upAPI
               (Sample.world "NORMAL") "shop" "color" ViewStandard
               Sample.shop Sample.color) as (_ & Hdeleted);
    [reflexivity..|].
  eexists. split.
  - apply Hdeleted; [left; reflexivity|reflexivity].
  - reflexivity.
Defined.

Lemma MarshalFragment_in_every_state_witness :
  API_MarshalFragment Sample.upAPI "shop" "color" 0
    (Sample.world "STARTING") =
    (inr {| frag_slice := 0; frag_bits := [(1, 5); (2, 9)]%Z |},
     Sample.world "STARTING").
Proof.
  apply (MarshalFragment_in_every_state Sample.upAPI
           (Sample.world "STARTING") "shop" "color" 0).
  left. reflexivity.
Defined.

Lemma AttrDiff_store_failures_witness :
  API_IndexAttrDiff Sample.upAPI "ledger" Sample.remoteBlocks
    Sample2.ledgerWorld =
    (inl (withMessage Sample2.badBlock "getting block"),
     Sample2.ledgerWorld).
Proof.
  destruct (AttrDiff_store_failures Sample.upAPI Sample2.ledgerWorld
              Sample2.brokenStore Sample.remoteBlocks
              (withMessage Sample2.badBlock "getting block"))
    as (Hindex & _).
  - reflexivity.
  - right. eexists _, [], 3%Z, [], Sample2.badBlock.
    split_and!; [reflexivity|reflexivity| |reflexivity|reflexivity].
    intros x Hx. by apply elem_of_nil in Hx.
  - apply (Hindex "ledger" Sample2.ledger); reflexivity.
Defined.

Lemma readColumnAttrSets_keeps_ids_with_attributes_witness :
  API_readColumnAttrSets (Some Sample.catalog) [7; 8; 345]%Z =
    inr [ {| cas_ID := 7; cas_Key := ""; cas_Attrs := Sample.attrs7 |};
          {| cas_ID := 345; cas_Key := ""; cas_Attrs := Sample.attrs345 |} ].
Proof.
  destruct (readColumnAttrSets_keeps_ids_with_attributes Sample.catalog
              [7; 8; 345]%Z) as (Hall & _).
  rewrite (Hall (λ id, if bool_decide (id = 7%Z) then Sample.attrs7
                       else if bool_decide (id = 345%Z) then Sample.attrs345
                       else ∅)).
  - reflexivity.
  - intros id Hid.
    repeat (apply elem_of_cons in Hid as [->|Hid]; [reflexivity|]).
    by apply elem_of_nil in Hid.
Defined.

Lemma local_failure_is_not_broadcast_witness :
  ∃ w',
    API_CreateIndex Sample.upAPI "shop" mkIndexOptions
      (Sample.world "NORMAL") =
      (inl (withMessage (errors_New "index already exists")
              "creating index"), w') ∧
    w_sent w' = [] ∧ w_stats w' = [].
Proof.
  destruct (local_failure_is_not_broadcast Sample.upAPI
              (Sample.world "NORMAL") (errors_New "index already exists"))
    as (Hcreate & _); [reflexivity|].
  eexists. split_and!.
  - apply (Hcreate "shop" mkIndexOptions Sample.store0). reflexivity.
  - reflexivity.
  - reflexivity.
Defined.

Lemma local_change_is_broadcast_then_counted_witness :
  ∃ w',
    API_CreateIndex Sample.upAPI "users" mkIndexOptions
      (Sample.world "NORMAL") = (inr (Sample.new_index "users"), w') ∧
    w_sent w' = [(CreateIndexMessage "users" mkIndexOptions, w_store w')] ∧
    w_stats w' = [("createIndex", [])].
Proof.
  destruct (local_change_is_broadcast_then_counted Sample.upAPI
              (Sample.world "NORMAL")) as (Hcreate & _);
    [reflexivity|intros m; reflexivity|].
  eexists. split_and!.
  - apply (Hcreate "users" mkIndexOptions (Sample.new_index "users")).
    reflexivity.
  - reflexivity.
  - reflexivity.
Defined.


Lemma ExportCSV_without_fragment_witness :
  API_ExportCSV Sample.upAPI "shop" "size" 0 (Sample.world "NORMAL") =
    (inl (Sentinel ErrFragmentNotFound), Sample.world "NORMAL").
Proof.
  apply (ExportCSV_without_fragment Sample.upAPI (Sample.world "NORMAL")
           "shop" "size" 0); reflexivity.
Defined.
